(** * Deterministic "best purchase day" selector: a shallow embedding of
    [verify_sha256.py] and the properties its specification states.

    The Python script reads a CSV file, sorts its rows by a date key, builds
    a canonical string over a fixed list of 39 columns, hashes it with
    SHA-256 and maps the first 32 bits of the digest onto a day of the month
    that follows the last observed date.

    Conventions of the embedding:
    - a Python [str] is a list of Unicode code points ([Z]);
    - a Python [dict] from column names to cell values is a [gmap str str];
    - a Python exception is a value of [exn]; code that may raise returns an
      [outcome];
    - the text handed to [compute_best_day] is what [f.read()] returns for
      the file (decoded, newlines already translated by the text layer);
    - the interpreter's primitives that the script calls ([str.strip],
      [str.split], [str.join], [int], [str.zfill], [list.sort],
      [calendar.monthrange], [str.encode], [hashlib.sha256]) are written out
      after CPython 3.8+ (Unicode 14 tables, no limit on the number of digits
      accepted by [int]);
    - the script consults no clock, locale or random source, and keeps
      nothing between two calls: a call is a function of the text of the
      file it is given, and is written as one. *)

From Stdlib Require Import ZArith List Ascii String Decimal DecimalZ Lia Bool.
From stdpp Require Import base option list sorting gmap.

Local Open Scope Z_scope.

(** ** Exceptions and results *)

Inductive exn : Type :=
  | IndexError          (* sequence subscript out of range *)
  | KeyError            (* missing dict key *)
  | ValueError          (* int() on an invalid literal *)
  | IllegalMonthError   (* calendar.monthrange on a month outside 1..12 *)
  | UnicodeEncodeError  (* str.encode on a lone surrogate *)
  | FileNotFoundError   (* open() on a path that does not exist *)
  | AssertionError.     (* a failed assert statement *)

Inductive outcome (A : Type) : Type :=
  | Ok (a : A)
  | Raise (e : exn).
Arguments Ok {A} a.
Arguments Raise {A} e.

#[global] Instance outcome_ret : MRet outcome := @Ok.
#[global] Instance outcome_bind : MBind outcome := fun A B f r =>
  match r with Ok a => f a | Raise e => Raise e end.
#[global] Instance outcome_fmap : FMap outcome := fun A B f r =>
  match r with Ok a => Ok (f a) | Raise e => Raise e end.

Definition of_option {A} (e : exn) (o : option A) : outcome A :=
  match o with Some a => Ok a | None => Raise e end.

Definition is_ok {A} (r : outcome A) : bool :=
  match r with Ok _ => true | Raise _ => false end.

#[global] Instance exn_eq_dec : EqDecision exn.
Proof. solve_decision. Defined.

#[global] Instance outcome_eq_dec {A} `{EqDecision A} : EqDecision (outcome A).
Proof. solve_decision. Defined.

(** ** Python strings *)

Module PyStr.

(** A [str] is its sequence of code points. *)
Abbreviation str := (list Z).

(** Literal ASCII text.  Non-ASCII code points are spliced in by number, as
    the script's own [°] escapes do. *)
Definition lit (s : string) : str :=
  map (fun a => Z.of_N (N_of_ascii a)) (list_ascii_of_string s).

Definition NL : Z := 10.      (* '\n' *)
Definition COMMA : Z := 44.   (* ',' *)
Definition SLASH : Z := 47.   (* '/' *)
Definition PIPE : Z := 124.   (* '|' *)
Definition ZERO : Z := 48.    (* '0' *)
Definition PLUS : Z := 43.    (* '+' *)
Definition MINUS : Z := 45.   (* '-' *)
Definition UNDERSCORE : Z := 95.

(** [str.isspace] on one code point ([_PyUnicode_IsWhitespace]). *)
Definition isspace (c : Z) : bool :=
  ((0x09 <=? c) && (c <=? 0x0d)) || ((0x1c <=? c) && (c <=? 0x20))
  || (c =? 0x85) || (c =? 0xa0) || (c =? 0x1680)
  || ((0x2000 <=? c) && (c <=? 0x200a))
  || (c =? 0x2028) || (c =? 0x2029) || (c =? 0x202f) || (c =? 0x205f)
  || (c =? 0x3000).

(** [s.lstrip()], [s.rstrip()] and [s.strip()] with no argument. *)
Fixpoint lstrip (s : str) : str :=
  match s with
  | [] => []
  | c :: s' => if isspace c then lstrip s' else s
  end.

Fixpoint rstrip (s : str) : str :=
  match s with
  | [] => []
  | c :: s' =>
      match rstrip s' with
      | [] => if isspace c then [] else [c]
      | r => c :: r
      end
  end.

Definition strip (s : str) : str := rstrip (lstrip s).

(** [s.split(sep)] for a one-character separator: never empty. *)
Fixpoint split (sep : Z) (s : str) : list str :=
  match s with
  | [] => [[]]
  | c :: s' =>
      if c =? sep then [] :: split sep s'
      else match split sep s' with
           | w :: ws => (c :: w) :: ws
           | [] => [[c]]
           end
  end.

(** [sep.join(parts)]. *)
Fixpoint join (sep : str) (parts : list str) : str :=
  match parts with
  | [] => []
  | [p] => p
  | p :: ps => p ++ sep ++ join sep ps
  end.

(** [str(n)] for an [int]. *)
Fixpoint uint_digits (d : Decimal.uint) : str :=
  match d with
  | Nil => []
  | D0 d => 48 :: uint_digits d
  | D1 d => 49 :: uint_digits d
  | D2 d => 50 :: uint_digits d
  | D3 d => 51 :: uint_digits d
  | D4 d => 52 :: uint_digits d
  | D5 d => 53 :: uint_digits d
  | D6 d => 54 :: uint_digits d
  | D7 d => 55 :: uint_digits d
  | D8 d => 56 :: uint_digits d
  | D9 d => 57 :: uint_digits d
  end.

Definition str_of_int (n : Z) : str :=
  match Z.to_int n with
  | Decimal.Pos d => uint_digits d
  | Decimal.Neg d => MINUS :: uint_digits d
  end.

(** [s.zfill(width)]: zeros go after a leading sign. *)
Definition zfill (width : nat) (s : str) : str :=
  let fill := repeat ZERO (width - length s) in
  match s with
  | c :: s' => if (c =? PLUS) || (c =? MINUS) then c :: fill ++ s' else fill ++ s
  | [] => fill
  end.

(** *** [int(s)] and [int(s, 16)] *)

(** First code points of the runs of ten decimal digits of Unicode 14
    (general category Nd). *)
Definition decimal_zeros : list Z :=
  [48; 1632; 1776; 1984; 2406; 2534; 2662; 2790; 2918; 3046; 3174; 3302;
   3430; 3558; 3664; 3792; 3872; 4160; 4240; 6112; 6160; 6470; 6608; 6784;
   6800; 6992; 7088; 7232; 7248; 42528; 43216; 43264; 43472; 43504; 43600;
   44016; 65296; 66720; 68912; 69734; 69872; 69942; 70096; 70384; 70736;
   70864; 71248; 71360; 71472; 71904; 72016; 72784; 73040; 73120; 92768;
   92864; 93008; 120782; 120792; 120802; 120812; 120822; 123200; 123632;
   125264; 130032].

(** [Py_UNICODE_TODECIMAL]. *)
Definition todecimal (c : Z) : option Z :=
  (fun z => c - z) <$> find (fun z => (z <=? c) && (c <=? z + 9)) decimal_zeros.

(** [_PyUnicode_TransformDecimalAndSpaceToASCII]: non-ASCII spaces become
    [' '], non-ASCII decimal digits their ASCII digit; the first other
    non-ASCII code point becomes ['?'] and ends the buffer. *)
Fixpoint to_ascii_decimal (s : str) : str :=
  match s with
  | [] => []
  | c :: s' =>
      if c <? 127 then c :: to_ascii_decimal s'
      else if isspace c then 32 :: to_ascii_decimal s'
      else match todecimal c with
           | Some d => (48 + d) :: to_ascii_decimal s'
           | None => [63]
           end
  end.

(** [Py_ISSPACE] of the C locale. *)
Definition c_isspace (c : Z) : bool :=
  ((9 <=? c) && (c <=? 13)) || (c =? 32).

Fixpoint skip_c_spaces (s : str) : str :=
  match s with
  | c :: s' => if c_isspace c then skip_c_spaces s' else s
  | [] => []
  end.

(** [_PyLong_DigitValue]: 0-9, then letters of either case from 10. *)
Definition digit_value (c : Z) : option Z :=
  if (48 <=? c) && (c <=? 57) then Some (c - 48)
  else if (97 <=? c) && (c <=? 122) then Some (c - 87)
  else if (65 <=? c) && (c <=? 90) then Some (c - 55)
  else None.

Definition digit_in_base (base c : Z) : option Z :=
  match digit_value c with
  | Some d => if d <? base then Some d else None
  | None => None
  end.

(** The digit loop of [PyLong_FromString]: reads digits and single
    underscores; fails on a doubled or trailing underscore.  Returns the
    value, the number of digits read and the unread rest. *)
Fixpoint scan_digits (base : Z) (prev_us : bool) (acc : Z) (n : nat) (s : str)
  : option (Z * nat * str) :=
  match s with
  | c :: s' =>
      if c =? UNDERSCORE then
        if prev_us then None else scan_digits base true acc n s'
      else
        match digit_in_base base c with
        | Some d => scan_digits base false (acc * base + d) (S n) s'
        | None => if prev_us then None else Some (acc, n, s)
        end
  | [] => if prev_us then None else Some (acc, n, s)
  end.

(** [PyLong_FromString] for base 10 and base 16. *)
Definition long_from_string (base : Z) (s : str) : option Z :=
  let s1 := skip_c_spaces s in
  let '(sign, s2) :=
    match s1 with
    | c :: t => if c =? PLUS then (1, t) else if c =? MINUS then (-1, t) else (1, s1)
    | [] => (1, s1)
    end in
  let s3 :=
    match s2 with
    | z :: x :: t =>
        if (z =? ZERO) && (base =? 16) && ((x =? 120) || (x =? 88)) then
          match t with
          | c :: t' => if c =? UNDERSCORE then t' else t
          | [] => t
          end
        else s2
    | _ => s2
    end in
  match s3 with
  | c :: _ => if c =? UNDERSCORE then None else
      match scan_digits base false 0 0 s3 with
      | Some (v, n, rest) =>
          if (n =? 0)%nat then None
          else match skip_c_spaces rest with
               | [] => Some (sign * v)
               | _ => None
               end
      | None => None
      end
  | [] => None
  end.

(** [int(s, base)]; raises [ValueError] on an invalid literal. *)
Definition int_of_str (base : Z) (s : str) : outcome Z :=
  of_option ValueError (long_from_string base (to_ascii_decimal s)).

Abbreviation int := (int_of_str 10).

End PyStr.
Import PyStr.

(** ** [str.encode('utf-8')] and [hashlib.sha256] *)

Module Utf8.

(** UTF-8 bytes of one code point; a surrogate cannot be encoded. *)
Definition encode_char (c : Z) : option (list Z) :=
  if (c <? 0) then None
  else if c <? 0x80 then Some [c]
  else if c <? 0x800 then Some [0xc0 + c / 64; 0x80 + c mod 64]
  else if c <? 0x10000 then
    if (0xd800 <=? c) && (c <=? 0xdfff) then None
    else Some [0xe0 + c / 4096; 0x80 + (c / 64) mod 64; 0x80 + c mod 64]
  else if c <? 0x110000 then
    Some [0xf0 + c / 262144; 0x80 + (c / 4096) mod 64;
          0x80 + (c / 64) mod 64; 0x80 + c mod 64]
  else None.

Fixpoint encode_chars (s : str) : option (list Z) :=
  match s with
  | [] => Some []
  | c :: s' =>
      match encode_char c, encode_chars s' with
      | Some b, Some bs => Some (b ++ bs)
      | _, _ => None
      end
  end.

(** [s.encode('utf-8')] with the strict error handler. *)
Definition encode (s : str) : outcome (list Z) :=
  of_option UnicodeEncodeError (encode_chars s).

End Utf8.

Module Sha256.

(** SHA-256 of FIPS 180-4 on 32-bit words held in [Z]. *)
Definition w32 (x : Z) : Z := x mod 2 ^ 32.
Definition add32 (x y : Z) : Z := w32 (x + y).
Definition rotr (n x : Z) : Z := Z.lor (Z.shiftr x n) (w32 (Z.shiftl x (32 - n))).
Definition not32 (x : Z) : Z := Z.lxor x (2 ^ 32 - 1).

Definition Ch (x y z : Z) : Z := Z.lxor (Z.land x y) (Z.land (not32 x) z).
Definition Maj (x y z : Z) : Z :=
  Z.lxor (Z.lxor (Z.land x y) (Z.land x z)) (Z.land y z).
Definition bsig0 (x : Z) : Z := Z.lxor (Z.lxor (rotr 2 x) (rotr 13 x)) (rotr 22 x).
Definition bsig1 (x : Z) : Z := Z.lxor (Z.lxor (rotr 6 x) (rotr 11 x)) (rotr 25 x).
Definition ssig0 (x : Z) : Z := Z.lxor (Z.lxor (rotr 7 x) (rotr 18 x)) (Z.shiftr x 3).
Definition ssig1 (x : Z) : Z := Z.lxor (Z.lxor (rotr 17 x) (rotr 19 x)) (Z.shiftr x 10).

Definition primes64 : list Z :=
  [2; 3; 5; 7; 11; 13; 17; 19; 23; 29; 31; 37; 41; 43; 47; 53; 59; 61; 67; 71;
   73; 79; 83; 89; 97; 101; 103; 107; 109; 113; 127; 131; 137; 139; 149; 151;
   157; 163; 167; 173; 179; 181; 191; 193; 197; 199; 211; 223; 227; 229; 233;
   239; 241; 251; 257; 263; 269; 271; 277; 281; 283; 293; 307; 311].

(** Integer cube root below [2 ^ bits], one bit at a time. *)
Fixpoint icbrt (bits : nat) (acc n : Z) : Z :=
  match bits with
  | O => acc
  | S b =>
      let cand := acc + 2 ^ Z.of_nat b in
      if cand ^ 3 <=? n then icbrt b cand n else icbrt b acc n
  end.

(** Round constants: the first 32 bits of the fractional parts of the cube
    roots of the first 64 primes. *)
Definition K : list Z :=
  Eval vm_compute in map (fun p => w32 (icbrt 36 0 (p * 2 ^ 96))) primes64.

Record state : Type := State { a : Z; b : Z; c : Z; d : Z; e : Z; f : Z; g : Z; h : Z }.

(** Initial hash value: the first 32 bits of the fractional parts of the
    square roots of the first 8 primes. *)
Definition H0 : state :=
  Eval vm_compute in
    let r p := w32 (Z.sqrt (p * 2 ^ 64)) in
    State (r 2) (r 3) (r 5) (r 7) (r 11) (r 13) (r 17) (r 19).

(** Big-endian words of a block of bytes. *)
Fixpoint words (bs : list Z) : list Z :=
  match bs with
  | b0 :: b1 :: b2 :: b3 :: rest =>
      (((b0 * 256 + b1) * 256 + b2) * 256 + b3) :: words rest
  | _ => []
  end.

(** Message schedule: [win] holds the sixteen most recent words. *)
Fixpoint schedule (n : nat) (win : list Z) : list Z :=
  match n, win with
  | S n', w0 :: rest =>
      let wnew := add32 (add32 (add32 (ssig1 (nth 14 win 0)) (nth 9 win 0))
                               (ssig0 (nth 1 win 0))) w0 in
      w0 :: schedule n' (rest ++ [wnew])
  | _, _ => []
  end.

Definition round (s : state) (kw : Z * Z) : state :=
  let t1 := add32 (add32 (add32 (add32 (h s) (bsig1 (e s))) (Ch (e s) (f s) (g s)))
                         (fst kw)) (snd kw) in
  let t2 := add32 (bsig0 (a s)) (Maj (a s) (b s) (c s)) in
  State (add32 t1 t2) (a s) (b s) (c s) (add32 (d s) t1) (e s) (f s) (g s).

Definition compress (s : state) (block : list Z) : state :=
  let r := fold_left round (combine K (schedule 64 (words block))) s in
  State (add32 (a s) (a r)) (add32 (b s) (b r)) (add32 (c s) (c r))
        (add32 (d s) (d r)) (add32 (e s) (e r)) (add32 (f s) (f r))
        (add32 (g s) (g r)) (add32 (h s) (h r)).

(** Padding: a one bit, zeros up to 56 mod 64, the bit length on 8 bytes. *)
Definition be_bytes (n : nat) (x : Z) : list Z :=
  map (fun i => (x / 256 ^ Z.of_nat i) mod 256) (rev (seq 0 n)).

Definition pad (msg : list Z) : list Z :=
  let len := Z.of_nat (length msg) in
  msg ++ [0x80] ++ repeat 0 (Z.to_nat ((55 - len) mod 64)) ++ be_bytes 8 (8 * len).

Fixpoint blocks (fuel : nat) (s : state) (bs : list Z) : state :=
  match fuel, bs with
  | S fuel', _ :: _ => blocks fuel' (compress s (firstn 64 bs)) (skipn 64 bs)
  | _, _ => s
  end.

(** [hashlib.sha256(msg).digest()]: 32 bytes. *)
Definition digest (msg : list Z) : list Z :=
  let p := pad msg in
  let s := blocks (length p) H0 p in
  flat_map (be_bytes 4) [a s; b s; c s; d s; e s; f s; g s; h s].

Definition hexchar (x : Z) : Z := if x <? 10 then 48 + x else 87 + x.

(** [hashlib.sha256(msg).hexdigest()]: 64 lowercase hexadecimal digits. *)
Definition hexdigest (msg : list Z) : str :=
  flat_map (fun x => [hexchar (x / 16); hexchar (x mod 16)]) (digest msg).

End Sha256.


(** ** [calendar.monthrange] *)

Module Calendar.

Definition mdays : list Z := [0; 31; 28; 31; 30; 31; 30; 31; 31; 30; 31; 30; 31].

Definition isleap (year : Z) : bool :=
  (year mod 4 =? 0) && (negb (year mod 100 =? 0) || (year mod 400 =? 0)).

(** [datetime.date(year, month, day).weekday()] through the proleptic
    ordinal, for a date that exists. *)
Definition days_before_year (year : Z) : Z :=
  let y := year - 1 in y * 365 + y / 4 - y / 100 + y / 400.

Definition days_before_month (year month : Z) : Z :=
  fold_left Z.add (firstn (Z.to_nat month) mdays) 0
  + (if (2 <? month) && isleap year then 1 else 0).

Definition date_weekday (year month day : Z) : Z :=
  (days_before_year year + days_before_month year month + day + 6) mod 7.

(** [calendar.weekday]: years outside 1..9999 are folded into 2000..2399. *)
Definition weekday (year month day : Z) : Z :=
  let year := if (1 <=? year) && (year <=? 9999) then year else 2000 + year mod 400 in
  date_weekday year month day.

(** [calendar.monthrange(year, month)]: weekday of the first day and number
    of days. *)
Definition monthrange (year month : Z) : outcome (Z * Z) :=
  if negb ((1 <=? month) && (month <=? 12)) then Raise IllegalMonthError
  else
    let day1 := weekday year month 1 in
    let ndays := nth (Z.to_nat month) mdays 0
                 + (if (month =? 2) && isleap year then 1 else 0) in
    Ok (day1, ndays).

End Calendar.


(** ** The script *)

Definition HASH_COLUMNS : list str :=
  [ lit "time"; lit "year"; lit "month"; lit "week_of_year"; lit "day_of_week";
    lit "is_market_open"; lit "is_flood_crisis"; lit "is_lockdown";
    lit "Avg.Price (Rs./Kg)"; lit "MaxPrice (Rs./Kg)"; lit "Daily_Spread";
    lit "Total Qty Arrived (Kgs)"; lit "Qty Sold (Kgs)"; lit "Smooth_Qty_Arrived";
    lit "Auctioneer";
    lit "temperature_2m_mean (" ++ [0xb0] ++ lit "C)";
    lit "temperature_2m_max (" ++ [0xb0] ++ lit "C)";
    lit "temperature_2m_min (" ++ [0xb0] ++ lit "C)"; lit "Temp_Diff";
    lit "precipitation_sum (mm)"; lit "relative_humidity_2m_mean (%)";
    lit "soil_moisture_0_to_7cm_mean (m" ++ [0xb3] ++ lit "/m" ++ [0xb3] ++ lit ")";
    lit "et0_fao_evapotranspiration (mm)";
    lit "Precip_7D"; lit "RH_7D";
    lit "Lag1"; lit "Lag7"; lit "Lag14"; lit "Lag30"; lit "Lag_MaxPrice_1";
    lit "Lag_Spread_1";
    lit "MA7"; lit "MA14"; lit "MA30";
    lit "Lag_Qty_Sold_1"; lit "Lag_Total_Qty_Arrived_1";
    lit "Precip_30D_Sum"; lit "Precip_Lag_60"; lit "Soil_Moisture_Lag_14" ].

Definition TIME : str := lit "time".

(** The sort key: [(year, month, day)], compared as Python compares tuples. *)
Definition date_key : Type := Z * Z * Z.

Definition key_leb (k1 k2 : date_key) : bool :=
  let '(y1, m1, d1) := k1 in
  let '(y2, m2, d2) := k2 in
  (y1 <? y2) || ((y1 =? y2) && ((m1 <? m2) || ((m1 =? m2) && (d1 <=? d2)))).

(** [parse_date_key(t)]. *)
Definition parse_date_key (t : str) : outcome date_key :=
  let parts := split SLASH (strip t) in
  match parts with
  | [p0; p1; p2] =>                      (* len(parts) == 3 *)
      if (length p2 =? 4)%nat then
        y ← int p2; m ← int p1; d ← int p0; Ok (y, m, d)
      else Ok (0, 0, 0)
  | _ => Ok (0, 0, 0)
  end.

(** A row is the dict built for one data line. *)
Abbreviation row := (gmap str str).

(** [row.get(col, '')]. *)
Definition get (r : row) (col : str) : str := default [] (r !! col).

(** [vals[i].strip() if i < len(vals) else ''] *)
Definition cell (vals : list str) (i : nat) : str :=
  match vals !! i with
  | Some v => strip v
  | None => []
  end.

(** The loop over [enumerate(header)], from index [i] on. *)
Fixpoint fill_row (i : nat) (header vals : list str) (r : row) : row :=
  match header with
  | [] => r
  | h :: hs => fill_row (S i) hs vals (<[h := cell vals i]> r)
  end.

(** Lines 28-37: the rows of the file, in file order. *)
Definition read_rows (text : str) : list row :=
  let lines := split NL (strip text) in
  let header := map strip (split COMMA (hd [] lines)) in
  map (fun line => fill_row 0 header (split COMMA line) ∅) (tl lines).

(** [list.sort(key=...)]: the keys are computed first, one call per element
    in list order, then the list is sorted stably on them.  A stable sort has
    one possible result; it is computed here by insertion from the right. *)
Section stable_sort.
Context {A : Type}.

Fixpoint insert_keyed (k : date_key) (x : A) (l : list (date_key * A))
    : list (date_key * A) :=
    match l with
    | [] => [(k, x)]
    | (k', y) :: l' =>
        if key_leb k k' then (k, x) :: l else (k', y) :: insert_keyed k x l'
    end.

Definition sort_keyed (l : list (date_key * A)) : list (date_key * A) :=
    foldr (fun kx acc => insert_keyed kx.1 kx.2 acc) [] l.
End stable_sort.

Definition sort_key (r : row) : outcome date_key := parse_date_key (get r TIME).

(** Line 39: [rows.sort(key=lambda r: parse_date_key(r.get('time', '')))]. *)
Definition sort_rows (rows : list row) : outcome (list row) :=
  keys ← mapM sort_key rows;
  Ok ((sort_keyed (zip keys rows)).*2).

Module Selection.
(** The dict returned by [compute_best_day]. *)
Record t : Type := Make {
    rows : Z;
    last_date : str;
    next_month : str;
    days_in_month : Z;
    sha256 : str;
    prefix : str;
    int_val : Z;
    predicted_day : Z;
    result : str
  }.
End Selection.

(** Lines 41-44: month and year of the anchor row's time field. *)
Definition anchor_month_year (last_time : str) : outcome (Z * Z) :=
  let lp := split SLASH last_time in
  m ← of_option IndexError (lp !! 1%nat);
  last_month ← int m;
  y ← of_option IndexError (lp !! 2%nat);
  last_year ← int y;
  Ok (last_month, last_year).

(** Lines 46-50. *)
Definition next_month_year (last_month last_year : Z) : Z * Z :=
  let next_mo := last_month + 1 in
  let next_yr := last_year in
  if next_mo >? 12 then (1, next_yr + 1) else (next_mo, next_yr).

(** Lines 54-57. *)
Definition row_string (r : row) : str :=
  join [COMMA] (map (fun col => get r col) HASH_COLUMNS).

Definition full_string (rows : list row) : str :=
  join [PIPE] (map row_string rows).

(** Lines 41-77: everything after the sort. *)
Definition select_sorted (rows : list row) : outcome Selection.t :=
  last_row ← of_option IndexError (last rows);
  t ← of_option KeyError (last_row !! TIME);
  let last_time := strip t in
  '(last_month, last_year) ← anchor_month_year last_time;
  let '(next_mo, next_yr) := next_month_year last_month last_year in
  '(_, days_in_mo) ← Calendar.monthrange next_yr next_mo;
  bytes ← Utf8.encode (full_string rows);
  let sha := Sha256.hexdigest bytes in
  let prefix := take 8 sha in
  int_val ← int_of_str 16 prefix;
  let day := int_val mod days_in_mo + 1 in
  let dd := zfill 2 (str_of_int day) in
  let mm := zfill 2 (str_of_int next_mo) in
  Ok {| Selection.rows := Z.of_nat (length rows);
        Selection.last_date := last_time;
        Selection.next_month := mm ++ [SLASH] ++ str_of_int next_yr;
        Selection.days_in_month := days_in_mo;
        Selection.sha256 := sha;
        Selection.prefix := prefix;
        Selection.int_val := int_val;
        Selection.predicted_day := day;
        Selection.result :=
          lit "Best Purchase Day Next Month: "
          ++ dd ++ [MINUS] ++ mm ++ [MINUS] ++ str_of_int next_yr |}.

(** Lines 39-77: everything after the rows have been read. *)
Definition select_day (rows : list row) : outcome Selection.t :=
  rows ← sort_rows rows;
  select_sorted rows.

(** The files the script can open: path to text, as [f.read()] returns it. *)
Definition filesystem : Type := str → option str.

(** [compute_best_day(csv_path)]. *)
Definition compute_best_day (fs : filesystem) (csv_path : str) : outcome Selection.t :=
  text ← of_option FileNotFoundError (fs csv_path);
  select_day (read_rows text).

(** ** Specification-side notions *)

(** A lowercase hexadecimal digit. *)
Definition is_hex (c : Z) : Prop := 48 ≤ c ≤ 57 ∨ 97 ≤ c ≤ 102.

Definition hex_digit (c : Z) : Z := if c <=? 57 then c - 48 else c - 87.

(** The base-16 value of a string of hexadecimal digits, most significant
    digit first. *)
Definition hex_value (s : str) : Z :=
  fold_left (fun acc c => acc * 16 + hex_digit c) s 0.

(** The proleptic Gregorian calendar, as the specification words it: a year
    is leap when divisible by 4, except centuries not divisible by 400. *)
Definition gregorian_leap (year : Z) : bool :=
  if year mod 400 =? 0 then true
  else if year mod 100 =? 0 then false
  else year mod 4 =? 0.

Definition gregorian_month_days (year month : Z) : Z :=
  if month =? 2 then (if gregorian_leap year then 29 else 28)
  else if (month =? 4) || (month =? 6) || (month =? 9) || (month =? 11) then 30
  else 31.

(** Everything [select_day] computes on a run that returns. *)
Inductive run (rows : list row) (r : Selection.t) : Prop :=
  | Run (sorted : list row) (last_row : row) (t : str) (last_month last_year : Z)
        (day1 : Z) (bytes : list Z) :
      let next_mo := (next_month_year last_month last_year).1 in
      let next_yr := (next_month_year last_month last_year).2 in
      sort_rows rows = Ok sorted →
      last sorted = Some last_row →
      last_row !! TIME = Some t →
      anchor_month_year (strip t) = Ok (last_month, last_year) →
      Calendar.monthrange next_yr next_mo = Ok (day1, Selection.days_in_month r) →
      Utf8.encode (full_string sorted) = Ok bytes →
      Selection.sha256 r = Sha256.hexdigest bytes →
      Selection.prefix r = take 8 (Selection.sha256 r) →
      int_of_str 16 (Selection.prefix r) = Ok (Selection.int_val r) →
      Selection.predicted_day r
        = Selection.int_val r mod Selection.days_in_month r + 1 →
      Selection.rows r = Z.of_nat (length sorted) →
      Selection.last_date r = strip t →
      Selection.next_month r
        = zfill 2 (str_of_int next_mo) ++ [SLASH] ++ str_of_int next_yr →
      Selection.result r
        = lit "Best Purchase Day Next Month: "
          ++ zfill 2 (str_of_int (Selection.predicted_day r)) ++ [MINUS]
          ++ zfill 2 (str_of_int next_mo) ++ [MINUS] ++ str_of_int next_yr →
      run rows r.

(** The month rollover as the specification's testable property words it:
    month 12 wraps to January of the next year, any other month steps by
    one within the year. *)
Definition rollover_as_stated (last_month last_year : Z) (next : Z * Z) : Prop :=
  (last_month = 12 → next = (1, last_year + 1))
  ∧ (last_month ≠ 12 → next = (last_month + 1, last_year)).


(** The canonical string as the specification builds it: items are appended
    one after the other, a separator going in front of every item but the
    first, so that none ends the string. *)
Definition append_item (sep : Z) (acc : option str) (item : str) : option str :=
  match acc with
  | None => Some item
  | Some s => Some (s ++ sep :: item)
  end.

Definition appended (sep : Z) (items : list str) : str :=
  default [] (foldl (append_item sep) None items).

(** The value of a column in a row, the empty string when the row lacks it. *)
Definition column_value (r : row) (col : str) : str :=
  match r !! col with
  | Some v => v
  | None => []
  end.

Definition canonical_row (r : row) : str :=
  appended COMMA (map (column_value r) HASH_COLUMNS).

Definition canonical_string (ordered_rows : list row) : str :=
  appended PIPE (map canonical_row ordered_rows).

(** Two rows agree on the recognized columns: each of the 39 is present in
    both with the same value, or absent from both. *)
Definition agree (r1 r2 : row) : Prop :=
  ∀ col, col ∈ HASH_COLUMNS → r1 !! col = r2 !! col.

#[global] Instance agree_dec r1 r2 : Decision (agree r1 r2).
Proof.
  refine (cast_if (decide (Forall (λ col, r1 !! col = r2 !! col) HASH_COLUMNS)));
    unfold agree; rewrite Forall_forall in *; auto.
Defined.

(** The key a row sorts on, when [parse_date_key] accepts its time field. *)
Definition has_key (k : date_key) (r : row) : Prop := sort_key r = Ok k.

#[global] Instance has_key_dec k r : Decision (has_key k r).
Proof. unfold has_key. apply _. Defined.

(** The key of a row whose time field [parse_date_key] accepts, and the
    rows paired with their keys. *)
Definition key_of (r : row) : date_key :=
  match sort_key r with
  | Ok k => k
  | Raise _ => (0, 0, 0)
  end.

Definition keyed (rows : list row) : list (date_key * row) :=
  map (λ r, (key_of r, r)) rows.

(** A list of keyed items in ascending key order. *)
Definition key_sorted {A} (l : list (date_key * A)) : Prop :=
  StronglySorted (λ p q, key_leb p.1 q.1 = true) l.

(** Ascending keys, as [list.sort] leaves them. *)
Definition ascending (rows : list row) : Prop :=
  ∀ (i j : nat) (ri rj : row) (ki kj : date_key),
    (i ≤ j)%nat → rows !! i = Some ri → rows !! j = Some rj →
    sort_key ri = Ok ki → sort_key rj = Ok kj → key_leb ki kj = true.

(** Keyed rows with the same key that agree on the recognized columns. *)
Definition keyed_agree (p q : date_key * row) : Prop := p.1 = q.1 ∧ agree p.2 q.2.

(** *** Files as tables of cells *)

(** A file written from a table: the cells of a line joined by commas, the
    lines by newlines. *)
Definition render (table : list (list str)) : str :=
  join [NL] (map (join [COMMA]) table).

(** A cell holds neither a comma nor a newline; a line has at least one
    cell, and a table at least one line. *)
Definition cell_ok (c : str) : Prop := (COMMA ∉ c) ∧ (NL ∉ c).

Definition table_ok (table : list (list str)) : Prop :=
  table ≠ [] ∧ Forall (λ line, line ≠ [] ∧ Forall cell_ok line) table.

#[global] Instance table_ok_dec table : Decision (table_ok table).
Proof. unfold table_ok, cell_ok. apply _. Defined.

(** Two cells that differ only in leading and trailing whitespace. *)
Definition same_stripped (c1 c2 : str) : Prop := strip c1 = strip c2.

#[global] Instance same_stripped_dec c1 c2 : Decision (same_stripped c1 c2).
Proof. unfold same_stripped. apply _. Defined.

(** The stripped cells of a line of text. *)
Definition cells_of (line : str) : list str := map strip (split COMMA line).

(** What stripping a text does to its lines: leading blank lines go and
    the first line left is stripped on the left; likewise on the right. *)
Fixpoint lstrip_lines (lines : list str) : list str :=
  match lines with
  | [] => []
  | [l] => [lstrip l]
  | l :: ls =>
      match lstrip l with
      | [] => lstrip_lines ls
      | r => r :: ls
      end
  end.

Fixpoint rstrip_lines (lines : list str) : list str :=
  match lines with
  | [] => []
  | [l] => [rstrip l]
  | l :: ls =>
      if decide (rstrip (join [NL] ls) = []) then [rstrip l]
      else l :: rstrip_lines ls
  end.

(** Two lines of text with the same stripped cells. *)
Definition same_cells (l1 l2 : str) : Prop := cells_of l1 = cells_of l2.

(** ** Sample inputs *)

(** A file is its lines joined by newlines. *)
Definition csv (lines : list str) : str := join [NL] lines.

Definition csv_feb_2026 : str :=
  csv [lit "time,year,note";
       lit "09/02/2026,2026,second";
       lit "08/02/2026,2026,first"].

Definition csv_header_only : str := csv [lit "time,year,month"].

Definition csv_dec_2026 : str :=
  csv [lit "time,year"; lit "15/12/2026,2026"; lit "30/11/2026,2026"].

Definition one_file (text : str) : filesystem := fun _ => Some text.

Definition csv_bad_date_first : str :=
  csv [lit "time,year"; lit "aa/bb/cccc,2026"; lit "09/02/2026,2026"].




Definition csv_feb_2026_plain : str :=
  csv [lit "time,year";
       lit "09/02/2026,2026";
       lit "08/02/2026,2026"].

Definition csv_tie_ab : str :=
  csv [lit "time,year"; lit "08/02/2026,a"; lit "08/02/2026,b"].

Definition csv_tie_ba : str :=
  csv [lit "time,year"; lit "08/02/2026,b"; lit "08/02/2026,a"].

(** The value of a call that returned. *)
Definition returned (o : outcome Selection.t) : Selection.t :=
  match o with
  | Ok r => r
  | Raise _ => Selection.Make 0 [] [] 0 [] [] 0 0 []
  end.

Definition rows_feb_2026 : list row := read_rows csv_feb_2026.

Definition table_plain : list (list str) :=
  [[lit "time"; lit "year"]; [lit "08/02/2026"; lit "2026"]; [lit "09/02/2026"; lit "2026"]].

Definition table_spaced : list (list str) :=
  [[lit " time  "; lit "year "]; [lit "  08/02/2026"; lit " 2026 "];
   [lit "09/02/2026 "; 9 :: (lit "2026" ++ [160; 32])]].

(** ** Notions used to describe the rest of the script's behaviour *)

(** The position of the last occurrence of a name in a header. *)
Fixpoint last_index (k : str) (header : list str) : option nat :=
  match header with
  | [] => None
  | h :: hs =>
      match last_index k hs with
      | Some j => Some (S j)
      | None => if decide (h = k) then Some 0%nat else None
      end
  end.

(** A code point that UTF-8 can encode: a Unicode scalar value. *)
Definition scalar (c : Z) : Prop := 0 ≤ c < 0xd800 ∨ 0xe000 ≤ c < 0x110000.

#[global] Instance scalar_dec c : Decision (scalar c).
Proof. unfold scalar. apply _. Defined.

(** An ASCII decimal digit, and the value of a string of them. *)
Definition is_digit (c : Z) : Prop := 48 ≤ c ≤ 57.

#[global] Instance is_digit_dec c : Decision (is_digit c).
Proof. unfold is_digit. apply _. Defined.

Definition dec_value (s : str) : Z := fold_left (λ acc c, acc * 10 + (c - 48)) s 0.

Definition csv_no_time : str :=
  csv [lit "date,year"; lit "08/02/2026,2026"; lit "09/02/2026,2026"].

Definition csv_negative_month : str := csv [lit "time"; lit "01/-5/2026"].

Definition csv_with_malformed : str :=
  csv [lit "time,note"; lit "09/02/2026,b"; lit "n/a,x"; lit "08/02/2026,a"].

Definition returned_rows (o : outcome (list row)) : list row :=
  match o with
  | Ok rows => rows
  | Raise _ => []
  end.

(** ** The script's top level (lines 79-115) *)

(** Statements that print and may raise: the lines printed so far are
    threaded through, and stay printed when an exception ends the run. *)
Definition prog (A : Type) : Type := list str → list str * outcome A.

Definition ret {A} (a : A) : prog A := λ out, (out, Ok a).

Definition bind {A B} (m : prog A) (k : A → prog B) : prog B :=
  λ out, match m out with
         | (out', Ok a) => k a out'
         | (out', Raise e) => (out', Raise e)
         end.

Definition lift {A} (o : outcome A) : prog A := λ out, (out, o).

(** [print(s)]. *)
Definition print (s : str) : prog unit := λ out, (out ++ [s], Ok ()).

Fixpoint print_all (lines : list str) : prog unit :=
  match lines with
  | [] => ret ()
  | l :: ls => bind (print l) (λ _, print_all ls)
  end.

(** [os.path.basename(f)]: what follows the last slash. *)
Definition basename (f : str) : str := default [] (last (split SLASH f)).

(** Python's order on [str]: code point by code point. *)
Fixpoint str_leb (s1 s2 : str) : bool :=
  match s1, s2 with
  | [], _ => true
  | _ :: _, [] => false
  | c1 :: t1, c2 :: t2 => (c1 <? c2) || ((c1 =? c2) && str_leb t1 t2)
  end.

Fixpoint insert_str (s : str) (l : list str) : list str :=
  match l with
  | [] => [s]
  | x :: l' => if str_leb s x then s :: l else x :: insert_str s l'
  end.

(** [sorted(paths)]. *)
Definition sorted (paths : list str) : list str := foldr insert_str [] paths.

Definition UPLOAD : str := lit "assets/data/test-upload-feb-mar-2026.csv".
Definition SAMPLE : str := lit "assets/data/India_Cardamom_Final_Ready.csv".

Definition rule : str := repeat 61 70.   (* "=" * 70 *)

(** The four lines printed for a result. *)
Definition report (r : Selection.t) : list str :=
  [ lit "  Rows: " ++ str_of_int (Selection.rows r)
    ++ lit " | Last: " ++ Selection.last_date r
    ++ lit " | Next: " ++ Selection.next_month r
    ++ lit " (" ++ str_of_int (Selection.days_in_month r) ++ lit "d)";
    lit "  SHA-256: " ++ take 16 (Selection.sha256 r) ++ lit "...";
    lit "  Prefix: " ++ Selection.prefix r
    ++ lit " -> int: " ++ str_of_int (Selection.int_val r)
    ++ lit " % " ++ str_of_int (Selection.days_in_month r)
    ++ lit " + 1 = " ++ str_of_int (Selection.predicted_day r);
    lit "  >>> " ++ Selection.result r ].

(** Lines 89-98: the loop over the scenario files. *)
Fixpoint scenarios (fs : filesystem) (files : list str) : prog unit :=
  match files with
  | [] => ret ()
  | f :: files' =>
      match fs f with
      | None => scenarios fs files'                (* not os.path.exists(f) *)
      | Some _ =>
          bind (lift (compute_best_day fs f)) (λ r,
          bind (print (NL :: basename f)) (λ _,
          bind (print_all (report r)) (λ _,
          scenarios fs files')))
      end
  end.

(** Lines 81-115, given what [glob.glob] returned. *)
Definition main (fs : filesystem) (globbed : list str) : prog unit :=
  let files := sorted globbed ++ [UPLOAD] in
  bind (print_all [rule; lit "SHA-256 DETERMINISTIC BEST PURCHASE DAY VERIFICATION"; rule]) (λ _,
  bind (scenarios fs files) (λ _,
  bind (print_all [NL :: rule; lit "SAMPLE DATA (India_Cardamom_Final_Ready.csv)"; rule]) (λ _,
  bind (lift (compute_best_day fs SAMPLE)) (λ r,
  bind (print_all (report r)) (λ _,
  bind (print_all [NL :: rule; lit "DETERMINISM CHECK (re-running sample data)"]) (λ _,
  bind (lift (compute_best_day fs SAMPLE)) (λ r2,
  bind (if decide (Selection.result r = Selection.result r2) then ret ()
        else lift (Raise AssertionError)) (λ _,
  print (lit "  >>> " ++ Selection.result r2 ++ lit " (MATCHES - deterministic!)"))))))))).

(** The lines the loop prints for one file that exists and is accepted. *)
Definition block (fs : filesystem) (f : str) : list str :=
  (NL :: basename f) :: report (returned (compute_best_day fs f)).

Definition exists_file (fs : filesystem) (f : str) : bool :=
  match fs f with Some _ => true | None => false end.

(** A file system with the sample file and one scenario. *)
Definition fs_two : filesystem := λ path,
  if decide (path = SAMPLE) then Some csv_feb_2026
  else if decide (path = lit "assets/data/test-scenarios/test-a.csv") then Some csv_feb_2026_plain
  else None.

(** * Proofs *)

(** ** The primitives agree with the interpreter on sample inputs *)

Example int_examples :
  map int [lit " 12 "; lit "+12"; lit "-5"; lit "1_2"; lit "_12"; lit "12_";
           lit "1__2"; lit ""; lit "+"; lit "0x10"; [0x1c; 49]; [0xa0; 49; 50];
           [1633; 1634]; lit "1 2"; lit "- 1"; [178]]
  = [Ok 12; Ok 12; Ok (-5); Ok 12; Raise ValueError; Raise ValueError;
     Raise ValueError; Raise ValueError; Raise ValueError; Raise ValueError;
     Raise ValueError; Ok 12; Ok 12; Raise ValueError; Raise ValueError;
     Raise ValueError]
  /\ map (int_of_str 16) [lit "0x1f"; lit "0X1f"; lit "0x_1f"; lit "0x"; lit "ff";
                          lit "FF"; lit "0xg"; lit "_ff"; lit "f_f"; lit "0_x1"]
  = [Ok 31; Ok 31; Ok 31; Raise ValueError; Ok 255; Ok 255; Raise ValueError;
     Raise ValueError; Ok 255; Raise ValueError].
Proof. split; vm_compute; reflexivity. Qed.

Example str_examples :
  split COMMA (lit "a,,b,") = [lit "a"; []; lit "b"; []]
  /\ split COMMA [] = [[]]
  /\ join (lit ",") [] = []
  /\ join (lit "|") [lit "a"; lit "b"; lit ""] = lit "a|b|"
  /\ strip (lit "  a b	 ") = lit "a b"
  /\ map (zfill 2) [lit "-5"; lit "5"; lit ""; lit "123"] = [lit "-5"; lit "05"; lit "00"; lit "123"]
  /\ zfill 4 (lit "+5") = lit "+005"
  /\ map str_of_int [0; 7; -12; 2026] = [lit "0"; lit "7"; lit "-12"; lit "2026"].
Proof. vm_compute. repeat split. Qed.
Example sha256_abc :
  Sha256.hexdigest (lit "abc")
  = lit "ba7816bf8f01cfea414140de5dae2223b00361a396177a9cb410ff61f20015ad"
  /\ Sha256.hexdigest []
  = lit "e3b0c44298fc1c149afbf4c8996fb92427ae41e4649b934ca495991b7852b855"
  /\ Sha256.hexdigest (repeat 97 119)
  = lit "31eba51c313a5c08226adf18d4a359cfdfd8d2e816b13f4af952f7ea6584dcfb".
Proof. vm_compute. repeat split. Qed.

Example monthrange_examples :
  map (fun ym => Calendar.monthrange (fst ym) (snd ym))
      [(26, 3); (0, 2); (-5, 2); (2026, 0); (2026, -4); (2028, 2); (2026, 11)]
  = [Ok (6, 31); Ok (1, 29); Ok (2, 28); Raise IllegalMonthError;
     Raise IllegalMonthError; Ok (1, 29); Ok (6, 30)].
Proof. vm_compute. reflexivity. Qed.

(** ** Basic facts about outcomes *)

Lemma bind_Ok {A B} (f : A → outcome B) (a : A) : (Ok a ≫= f) = f a.
Proof. reflexivity. Qed.

Lemma bind_Raise {A B} (f : A → outcome B) (e : exn) : (Raise e ≫= f) = Raise e.
Proof. reflexivity. Qed.

Lemma bind_Ok_inv {A B} (f : A → outcome B) (r : outcome A) (b : B) :
  (r ≫= f) = Ok b → ∃ a, r = Ok a ∧ f a = Ok b.
Proof. destruct r as [a|e]; [eauto | discriminate]. Qed.

Lemma of_option_Ok {A} (e : exn) (o : option A) (a : A) :
  of_option e o = Ok a ↔ o = Some a.
Proof. destruct o; simpl; split; congruence. Qed.

Lemma is_ok_true {A} (r : outcome A) : is_ok r = true ↔ ∃ a, r = Ok a.
Proof.
  destruct r; simpl; split; eauto; try discriminate.
  intros [? ?]; discriminate.
Qed.

Ltac binds := cbn [mbind outcome_bind of_option].
Tactic Notation "binds" "in" hyp(H) := cbn [mbind outcome_bind of_option] in H.

(** Closed equalities, by evaluation. *)
Ltac by_vm := vm_compute; exact eq_refl.

Lemma select_day_run rows r : select_day rows = Ok r ↔ run rows r.
Proof.
  unfold select_day, select_sorted. split.
  - intros H.
    apply bind_Ok_inv in H as (sorted & Hsort & H).
    apply bind_Ok_inv in H as (lr & Hlast & H). apply of_option_Ok in Hlast.
    apply bind_Ok_inv in H as (t & Ht & H). apply of_option_Ok in Ht.
    apply bind_Ok_inv in H as ([m y] & Hparse & H).
    destruct (next_month_year m y) as [nm ny] eqn:Hnext.
    apply bind_Ok_inv in H as ([d1 dim] & Hrange & H).
    apply bind_Ok_inv in H as (bytes & Henc & H).
    apply bind_Ok_inv in H as (iv & Hint & H).
    injection H as <-.
    eapply (Run _ _ sorted lr t m y d1 bytes); rewrite ?Hnext; simpl; eauto.
  - intros [sorted lr t m y d1 bytes nm ny Hsort Hlast Ht Hparse Hrange Henc
              Hsha Hpre Hint Hday Hrows Hdate Hlabel Hres].
    rewrite Hsha in Hpre. rewrite Hpre in Hint.
    rewrite Hsort; binds. rewrite Hlast; binds. rewrite Ht; binds.
    rewrite Hparse; binds.
    subst nm ny. destruct (next_month_year m y) as [nm ny]; simpl in *.
    rewrite Hrange; binds. rewrite Henc; binds. rewrite Hint; binds.
    destruct r; simpl in *. subst. reflexivity.
Qed.

(** ** The digest prefix always parses *)

Lemma is_hex_hexchar x : 0 ≤ x < 16 → is_hex (Sha256.hexchar x).
Proof. unfold is_hex, Sha256.hexchar. intros ?. destruct (Z.ltb_spec x 10); lia. Qed.

Lemma is_hex_digit_in_base c :
  is_hex c → digit_in_base 16 c = Some (hex_digit c).
Proof.
  unfold is_hex, digit_in_base, digit_value, hex_digit. intros Hc.
  destruct (Z.leb_spec 48 c), (Z.leb_spec c 57); simpl.
  - destruct (Z.ltb_spec (c - 48) 16); [reflexivity | lia].
  - destruct (Z.leb_spec 97 c), (Z.leb_spec c 122); simpl; try lia.
    destruct (Z.ltb_spec (c - 87) 16); [reflexivity | lia].
  - lia.
  - lia.
Qed.

Lemma to_ascii_decimal_hex s : Forall is_hex s → to_ascii_decimal s = s.
Proof.
  induction 1 as [|c s Hc _ IH]; simpl; [reflexivity|].
  destruct (Z.ltb_spec c 127); [by rewrite IH | unfold is_hex in Hc; lia].
Qed.

Lemma scan_digits_hex s acc n :
  Forall is_hex s →
  scan_digits 16 false acc n s
  = Some (fold_left (fun a c => a * 16 + hex_digit c) s acc, (n + length s)%nat, []).
Proof.
  intros Hs. revert acc n. induction Hs as [|c s Hc _ IH]; intros acc n; simpl.
  - by rewrite Nat.add_0_r.
  - destruct (Z.eqb_spec c UNDERSCORE) as [->|_].
    { unfold is_hex, UNDERSCORE in Hc; lia. }
    rewrite (is_hex_digit_in_base c Hc), IH. do 3 f_equal. lia.
Qed.

Lemma int16_hex s : Forall is_hex s → s ≠ [] → int_of_str 16 s = Ok (hex_value s).
Proof.
  intros Hs Hne. unfold int_of_str. rewrite (to_ascii_decimal_hex s Hs).
  destruct Hs as [|c s Hc Hs]; [done|]. clear Hne.
  assert (Hsp : c_isspace c = false).
  { unfold c_isspace, is_hex in *.
    destruct (Z.leb_spec 9 c), (Z.leb_spec c 13), (Z.eqb_spec c 32); simpl; lia. }
  unfold long_from_string. cbn [skip_c_spaces]. rewrite Hsp.
  destruct (Z.eqb_spec c PLUS) as [->|_]; [unfold is_hex, PLUS in Hc; lia|].
  destruct (Z.eqb_spec c MINUS) as [->|_]; [unfold is_hex, MINUS in Hc; lia|].
  assert (Hs3 : match c :: s with
                | z :: x :: t =>
                    if (z =? ZERO) && (16 =? 16) && ((x =? 120) || (x =? 88)) then
                      match t with
                      | c :: t' => if c =? UNDERSCORE then t' else t
                      | [] => t
                      end
                    else c :: s
                | _ => c :: s
                end = c :: s).
  { destruct Hs as [|x t Hx _]; [reflexivity|].
    destruct (Z.eqb_spec x 120) as [->|_]; [unfold is_hex in Hx; lia|].
    destruct (Z.eqb_spec x 88) as [->|_]; [unfold is_hex in Hx; lia|].
    by rewrite andb_false_r. }
  rewrite Hs3.
  destruct (Z.eqb_spec c UNDERSCORE) as [->|_]; [unfold is_hex, UNDERSCORE in Hc; lia|].
  rewrite scan_digits_hex by (by constructor). simpl.
  unfold hex_value. simpl. f_equal. by destruct (fold_left _ s _).
Qed.

Lemma hexdigest_hex msg :
  Forall is_hex (Sha256.hexdigest msg) ∧ length (Sha256.hexdigest msg) = 64%nat.
Proof.
  unfold Sha256.hexdigest, Sha256.digest.
  generalize (Sha256.blocks (length (Sha256.pad msg)) Sha256.H0 (Sha256.pad msg)).
  intros st. cbn [flat_map Sha256.be_bytes seq rev map app length].
  split; [|reflexivity].
  repeat (apply Forall_cons; split;
          [apply is_hex_hexchar;
           first [apply Z.mod_pos_bound; lia
                 | split; [apply Z.div_pos | apply Z.div_lt_upper_bound];
                   try lia; apply Z.mod_pos_bound; lia]|]).
  apply Forall_nil_2.
Qed.

(** [int(prefix, 16)] on line 61 never raises, and yields the base-16 value
    of the prefix. *)
Lemma prefix_parses msg :
  int_of_str 16 (take 8 (Sha256.hexdigest msg))
  = Ok (hex_value (take 8 (Sha256.hexdigest msg))).
Proof.
  destruct (hexdigest_hex msg) as [Hhex Hlen].
  apply int16_hex.
  - by apply Forall_take.
  - destruct (Sha256.hexdigest msg); [discriminate | discriminate].
Qed.

(** ** The calendar *)

Lemma isleap_gregorian year : Calendar.isleap year = gregorian_leap year.
Proof.
  unfold Calendar.isleap, gregorian_leap.
  destruct (Z.eqb_spec (year mod 400) 0) as [H400|H400];
    destruct (Z.eqb_spec (year mod 100) 0) as [H100|H100];
    destruct (Z.eqb_spec (year mod 4) 0) as [H4|H4]; simpl; try reflexivity;
    exfalso; Z.div_mod_to_equations; lia.
Qed.

Lemma monthrange_Ok year month day1 ndays :
  Calendar.monthrange year month = Ok (day1, ndays) →
  1 ≤ month ≤ 12 ∧ ndays = gregorian_month_days year month ∧ 28 ≤ ndays ≤ 31.
Proof.
  unfold Calendar.monthrange.
  destruct (Z.leb_spec 1 month), (Z.leb_spec month 12); simpl; try discriminate.
  intros [= _ <-]. rewrite isleap_gregorian. unfold gregorian_month_days.
  assert (Hm : month = 1 ∨ month = 2 ∨ month = 3 ∨ month = 4 ∨ month = 5
               ∨ month = 6 ∨ month = 7 ∨ month = 8 ∨ month = 9 ∨ month = 10
               ∨ month = 11 ∨ month = 12) by lia.
  destruct (gregorian_leap year);
    repeat (destruct Hm as [->|Hm]; [simpl; lia|]); subst; simpl; lia.
Qed.

Lemma monthrange_returns year month :
  1 ≤ month ≤ 12 → ∃ day1 ndays, Calendar.monthrange year month = Ok (day1, ndays).
Proof.
  intros ?. unfold Calendar.monthrange.
  destruct (Z.leb_spec 1 month), (Z.leb_spec month 12); simpl; try lia. eauto.
Qed.


Lemma next_month_valid last_month last_year :
  1 ≤ (next_month_year last_month last_year).1 ≤ 12 ↔ 0 ≤ last_month.
Proof.
  unfold next_month_year.
  destruct (Z.gtb_spec (last_month + 1) 12); simpl; lia.
Qed.

(** When [select_day] returns: exactly when the sort, the anchor row, its
    time field, the calendar and the encoder all accept the input. *)
Lemma select_day_returns rows sorted last_row t last_month last_year :
  sort_rows rows = Ok sorted →
  last sorted = Some last_row →
  last_row !! TIME = Some t →
  anchor_month_year (strip t) = Ok (last_month, last_year) →
  0 ≤ last_month →
  is_ok (Utf8.encode (full_string sorted)) = true →
  ∃ r, select_day rows = Ok r.
Proof.
  intros Hsort Hlast Ht Hparse Hm Henc.
  apply is_ok_true in Henc as [bytes Henc].
  apply next_month_valid with (last_year := last_year) in Hm.
  destruct (monthrange_returns (next_month_year last_month last_year).2 _ Hm)
    as (day1 & ndays & Hrange).
  unfold select_day, select_sorted.
  rewrite Hsort; binds. rewrite Hlast; binds. rewrite Ht; binds.
  rewrite Hparse; binds.
  destruct (next_month_year last_month last_year) as [nm ny]; simpl in Hrange.
  rewrite Hrange; binds. rewrite Henc; binds.
  rewrite prefix_parses; binds. eauto.
Qed.

(** ** Splitting and joining *)

Lemma split_nonempty sep s : split sep s ≠ [].
Proof.
  destruct s as [|c s]; simpl; [discriminate|].
  destruct (c =? sep); [discriminate|]. destruct (split sep s); discriminate.
Qed.

Lemma split_cons_ne sep c s :
  c ≠ sep →
  split sep (c :: s) = (c :: hd [] (split sep s)) :: tl (split sep s).
Proof.
  intros Hne. simpl. destruct (Z.eqb_spec c sep); [done|].
  pose proof (split_nonempty sep s). by destruct (split sep s).
Qed.

Lemma split_cons_eq sep s : split sep (sep :: s) = [] :: split sep s.
Proof. simpl. by rewrite Z.eqb_refl. Qed.

Lemma split_no_sep sep s : sep ∉ s → split sep s = [s].
Proof.
  induction s as [|c s IH]; intros Hs; [reflexivity|].
  rewrite not_elem_of_cons in Hs. destruct Hs as [Hc Hs].
  rewrite split_cons_ne by done. by rewrite IH.
Qed.

Lemma split_app_sep sep a b :
  sep ∉ a → split sep (a ++ sep :: b) = a :: split sep b.
Proof.
  induction a as [|c a IH]; intros Ha.
  - apply split_cons_eq.
  - rewrite not_elem_of_cons in Ha. destruct Ha as [Hc Ha].
    rewrite <- app_comm_cons, split_cons_ne by done. by rewrite IH.
Qed.

Lemma join_cons sep p q ps :
  join [sep] (p :: q :: ps) = p ++ sep :: join [sep] (q :: ps).
Proof. reflexivity. Qed.

Lemma split_join sep parts :
  parts ≠ [] → Forall (λ p, sep ∉ p) parts → split sep (join [sep] parts) = parts.
Proof.
  intros Hne Hparts. induction Hparts as [|p ps Hp Hps IH]; [done|].
  destruct ps as [|q ps].
  - simpl. by apply split_no_sep.
  - rewrite join_cons, split_app_sep by done. by rewrite IH.
Qed.

(** ** The order on keys *)

Ltac key_order :=
  repeat match goal with k : date_key |- _ => destruct k as [[? ?] ?] end;
  unfold key_leb in *;
  rewrite ?orb_true_iff, ?andb_true_iff, ?orb_false_iff, ?andb_false_iff,
    ?Z.ltb_lt, ?Z.eqb_eq, ?Z.leb_le, ?Z.ltb_ge, ?Z.eqb_neq, ?Z.leb_gt in *.

Lemma key_leb_refl (k : date_key) : key_leb k k = true.
Proof. key_order. lia. Qed.

Lemma key_leb_total (k1 k2 : date_key) : key_leb k1 k2 = true ∨ key_leb k2 k1 = true.
Proof. key_order. lia. Qed.

Lemma key_leb_trans (k1 k2 k3 : date_key) :
  key_leb k1 k2 = true → key_leb k2 k3 = true → key_leb k1 k3 = true.
Proof. key_order. lia. Qed.

Lemma key_leb_antisym (k1 k2 : date_key) :
  key_leb k1 k2 = true → key_leb k2 k1 = true → k1 = k2.
Proof.
  destruct k1 as [[y1 m1] d1], k2 as [[y2 m2] d2]. key_order. intros H1 H2.
  assert (y1 = y2 ∧ m1 = m2 ∧ d1 = d2) as (-> & -> & ->) by lia. reflexivity.
Qed.

(** ** The stable sort *)

Section stable_sort_facts.
Context {A : Type}.
Implicit Types (l : list (date_key * A)) (k : date_key) (x : A).

Lemma insert_keyed_perm k x l : insert_keyed k x l ≡ₚ (k, x) :: l.
Proof.
  induction l as [|[k1 y] l IH]; simpl; [done|].
  destruct (key_leb k k1); [done|]. rewrite IH. apply Permutation_swap.
Qed.

Lemma sort_keyed_perm l : sort_keyed l ≡ₚ l.
Proof.
  induction l as [|[k x] l IH]; simpl; [done|].
  rewrite insert_keyed_perm. by rewrite IH.
Qed.

Lemma insert_keyed_sorted k x l : key_sorted l → key_sorted (insert_keyed k x l).
Proof.
  unfold key_sorted. induction 1 as [|[k1 y] l Hs IH Hall]; simpl.
  - repeat constructor.
  - destruct (key_leb k k1) eqn:Hk.
    + constructor; [by constructor|]. constructor; [exact Hk|].
      eapply Forall_impl; [exact Hall|]. intros [k2 z] H; simpl in *.
      by eapply key_leb_trans.
    + constructor; [exact IH|]. rewrite insert_keyed_perm.
      constructor; [|exact Hall]. simpl.
      destruct (key_leb_total k k1); congruence.
Qed.

Lemma sort_keyed_sorted l : key_sorted (sort_keyed l).
Proof.
  induction l as [|[k x] l IH]; simpl; [constructor|].
  by apply insert_keyed_sorted.
Qed.

(** Stability: the items of one key come out in the order they went in. *)
Lemma insert_keyed_filter k x l k' :
  filter (λ p, p.1 = k') (insert_keyed k x l) = filter (λ p, p.1 = k') ((k, x) :: l).
Proof.
  induction l as [|[k1 y] l IH]; simpl; [done|].
  destruct (key_leb k k1) eqn:Hk; [done|].
  rewrite !filter_cons in *. simpl in *. rewrite IH.
  destruct (decide (k1 = k')) as [->|]; destruct (decide (k = k')) as [->|]; try done.
  by rewrite key_leb_refl in Hk.
Qed.

Lemma sort_keyed_filter l k' :
  filter (λ p, p.1 = k') (sort_keyed l) = filter (λ p, p.1 = k') l.
Proof.
  induction l as [|[k x] l IH]; simpl; [done|].
  rewrite insert_keyed_filter, !filter_cons. simpl. by rewrite IH.
Qed.

(** A stable sort has one possible result. *)
Lemma key_sorted_unique l1 l2 :
  key_sorted l1 → key_sorted l2 →
  (∀ k, filter (λ p, p.1 = k) l1 = filter (λ p, p.1 = k) l2) →
  l1 = l2.
Proof.
  unfold key_sorted. intros Hs1. revert l2.
  induction Hs1 as [|[k1 x1] l1 Hs1 IH Hall1]; intros l2 Hs2 Hf.
  - destruct l2 as [|[k2 x2] l2]; [done|].
    specialize (Hf k2). rewrite filter_cons in Hf. simpl in Hf.
    by rewrite decide_True in Hf.
  - destruct Hs2 as [|[k2 x2] l2 Hs2 Hall2].
    { specialize (Hf k1). rewrite filter_cons in Hf. simpl in Hf.
      by rewrite decide_True in Hf. }
    assert (H12 : key_leb k1 k2 = true).
    { pose proof (Hf k2) as H. rewrite !filter_cons in H. simpl in H.
      rewrite (decide_True (P := k2 = k2)) in H by done.
      destruct (decide (k1 = k2)) as [->|]; [apply key_leb_refl|].
      assert (Hin : (k2, x2) ∈ filter (λ p : date_key * A, p.1 = k2) l1).
      { rewrite H. left. }
      apply list_elem_of_filter in Hin as [_ Hin].
      rewrite Forall_forall in Hall1. by apply (Hall1 _ Hin). }
    assert (H21 : key_leb k2 k1 = true).
    { pose proof (Hf k1) as H. rewrite !filter_cons in H. simpl in H.
      rewrite (decide_True (P := k1 = k1)) in H by done.
      destruct (decide (k2 = k1)) as [->|]; [apply key_leb_refl|].
      assert (Hin : (k1, x1) ∈ filter (λ p : date_key * A, p.1 = k1) l2).
      { rewrite <- H. left. }
      apply list_elem_of_filter in Hin as [_ Hin].
      rewrite Forall_forall in Hall2. by apply (Hall2 _ Hin). }
    pose proof (key_leb_antisym _ _ H12 H21) as ->.
    pose proof (Hf k2) as H. rewrite !filter_cons in H. simpl in H.
    rewrite !(decide_True (P := k2 = k2)) in H by done.
    injection H as -> Ht. f_equal. apply IH; [exact Hs2|].
    intros k. destruct (decide (k2 = k)) as [<-|Hne]; [exact Ht|].
    specialize (Hf k). rewrite !filter_cons in Hf. simpl in Hf.
    by rewrite !(decide_False (P := k2 = k)) in Hf by done.
Qed.

End stable_sort_facts.

(** ** Line 39: sorting the rows *)

Lemma int_raise base s e : int_of_str base s = Raise e → e = ValueError.
Proof.
  unfold int_of_str. destruct (long_from_string _ _); simpl; congruence.
Qed.

Lemma parse_date_key_raise t e : parse_date_key t = Raise e → e = ValueError.
Proof.
  unfold parse_date_key.
  destruct (split SLASH (strip t)) as [|p0 [|p1 [|p2 [|p3 ps]]]]; try discriminate.
  destruct (length p2 =? 4)%nat; [|discriminate].
  destruct (int p2) as [y|e2] eqn:H2; binds; [|intros [= <-]; by eapply int_raise].
  destruct (int p1) as [m|e1] eqn:H1; binds; [|intros [= <-]; by eapply int_raise].
  destruct (int p0) as [d|e0] eqn:H0; binds; [|intros [= <-]; by eapply int_raise].
  discriminate.
Qed.

Lemma sort_key_raise r e : sort_key r = Raise e → e = ValueError.
Proof. apply parse_date_key_raise. Qed.

Lemma sort_key_key_of r : is_ok (sort_key r) = true → sort_key r = Ok (key_of r).
Proof. unfold key_of. by destruct (sort_key r). Qed.

Lemma has_key_key_of r k : is_ok (sort_key r) = true → has_key k r ↔ key_of r = k.
Proof.
  intros Hok. unfold has_key. rewrite (sort_key_key_of r Hok).
  split; congruence.
Qed.

Lemma mapM_sort_key rows :
  mapM sort_key rows
  = if decide (Forall (λ r, is_ok (sort_key r) = true) rows)
    then Ok (map key_of rows) else Raise ValueError.
Proof.
  induction rows as [|r rows IH]; [by rewrite decide_True|].
  cbn [mapM]. change (mapM sort_key rows) with (mapM sort_key rows) in IH.
  destruct (sort_key r) as [k|e] eqn:Hr; binds.
  - rewrite IH. assert (Hk : key_of r = k) by (unfold key_of; by rewrite Hr).
    destruct (decide (Forall _ rows)) as [Hall|Hall]; binds.
    + rewrite decide_True; [by rewrite <- Hk|]. constructor; [by rewrite Hr | done].
    + rewrite decide_False; [done|]. by intros [_ ?]%Forall_cons.
  - rewrite decide_False.
    + by rewrite (sort_key_raise _ _ Hr).
    + intros [H _]%Forall_cons. by rewrite Hr in H.
Qed.

Lemma zip_key_of rows : zip (map key_of rows) rows = keyed rows.
Proof. induction rows as [|r rows IH]; simpl; [done|]. by rewrite IH. Qed.

Lemma sort_rows_eq rows :
  sort_rows rows
  = if decide (Forall (λ r, is_ok (sort_key r) = true) rows)
    then Ok (sort_keyed (keyed rows)).*2 else Raise ValueError.
Proof.
  unfold sort_rows. rewrite mapM_sort_key.
  destruct (decide _); binds; [|done]. by rewrite zip_key_of.
Qed.

Lemma keyed_snd rows : (keyed rows).*2 = rows.
Proof.
  unfold keyed. induction rows as [|r rows IH]; [done|].
  simpl. f_equal. exact IH.
Qed.

Lemma keyed_of_perm (l : list (date_key * row)) rows :
  l ≡ₚ keyed rows → l = keyed (l.*2).
Proof.
  intros Hperm.
  assert (Hall : Forall (λ p, p.1 = key_of p.2) l).
  { rewrite Hperm. unfold keyed. apply Forall_forall.
    intros p Hp. apply list_elem_of_fmap in Hp as (r & -> & _). done. }
  clear Hperm. unfold keyed. induction Hall as [|[k r] l Hk _ IH]; [done|].
  simpl in *. f_equal; [by rewrite Hk | exact IH].
Qed.

Lemma keyed_filter rows k :
  Forall (λ r, is_ok (sort_key r) = true) rows →
  filter (λ p, p.1 = k) (keyed rows) = keyed (filter (has_key k) rows).
Proof.
  induction 1 as [|r rows Hr _ IH]; [done|].
  simpl. rewrite !filter_cons. simpl. rewrite IH.
  destruct (decide (key_of r = k)) as [Hk|Hk].
  - rewrite decide_True; [done|]. by apply has_key_key_of.
  - rewrite decide_False; [done|]. by rewrite has_key_key_of.
Qed.

Lemma keyed_inj rows1 rows2 : keyed rows1 = keyed rows2 → rows1 = rows2.
Proof. intros H. by rewrite <- (keyed_snd rows1), H, keyed_snd. Qed.

(** What [list.sort] leaves: the same rows, in ascending key order, the rows
    of one key in the order they had. *)
Lemma sort_rows_Ok rows sorted :
  sort_rows rows = Ok sorted →
  Forall (λ r, is_ok (sort_key r) = true) rows
  ∧ sorted ≡ₚ rows
  ∧ key_sorted (keyed sorted)
  ∧ (∀ k, filter (has_key k) sorted = filter (has_key k) rows).
Proof.
  rewrite sort_rows_eq. destruct (decide _) as [Hall|]; [|discriminate].
  intros [= <-]. split; [exact Hall|].
  pose proof (sort_keyed_perm (keyed rows)) as Hperm.
  pose proof (keyed_of_perm _ _ Hperm) as Hkeyed.
  assert (Hp : (sort_keyed (keyed rows)).*2 ≡ₚ rows).
  { by rewrite Hperm, keyed_snd. }
  split; [exact Hp|]. split.
  - rewrite <- Hkeyed. apply sort_keyed_sorted.
  - intros k. apply keyed_inj. rewrite <- !keyed_filter; [|done|by rewrite Hp].
    rewrite <- Hkeyed. apply sort_keyed_filter.
Qed.

Lemma key_sorted_ascending rows :
  Forall (λ r, is_ok (sort_key r) = true) rows →
  key_sorted (keyed rows) → ascending rows.
Proof.
  intros Hall Hs i j ri rj ki kj Hij Hi Hj Hki Hkj.
  assert (Hki' : key_of ri = ki) by (unfold key_of; by rewrite Hki).
  assert (Hkj' : key_of rj = kj) by (unfold key_of; by rewrite Hkj).
  destruct (decide (i = j)) as [->|Hne].
  { assert (ri = rj) as -> by congruence.
    assert (ki = kj) as -> by congruence. apply key_leb_refl. }
  unfold key_sorted in Hs. rewrite <- (take_drop j (keyed rows)) in Hs.
  subst ki kj.
  apply (StronglySorted_app_1_elem_of _ _ _ (key_of ri, ri) (key_of rj, rj) Hs).
  - apply list_elem_of_lookup. exists i. rewrite lookup_take_lt by lia.
    unfold keyed. by rewrite list_lookup_fmap, Hi.
  - apply list_elem_of_lookup. exists 0%nat. rewrite lookup_drop, Nat.add_0_r.
    unfold keyed. by rewrite list_lookup_fmap, Hj.
Qed.

(** Two row lists with the same rows under every key sort to the same list. *)
Lemma sort_rows_stable_eq rows rows' :
  rows ≡ₚ rows' →
  (∀ k, filter (has_key k) rows = filter (has_key k) rows') →
  sort_rows rows = sort_rows rows'.
Proof.
  intros Hperm Hf. rewrite !sort_rows_eq.
  destruct (decide (Forall _ rows)) as [Hall|Hall].
  - assert (Hall' : Forall (λ r, is_ok (sort_key r) = true) rows')
      by (by rewrite <- Hperm).
    rewrite decide_True by done. do 2 f_equal.
    apply key_sorted_unique; try apply sort_keyed_sorted.
    intros k. rewrite !sort_keyed_filter, !keyed_filter by done. by rewrite Hf.
  - rewrite decide_False; [done|]. by rewrite <- Hperm.
Qed.

(** ** Lines 54-57: the canonical string *)

Lemma join_app_head sep a x xs :
  join [sep] ((a ++ sep :: x) :: xs) = a ++ sep :: join [sep] (x :: xs).
Proof.
  destruct xs as [|y ys]; [reflexivity|].
  rewrite !join_cons. by rewrite <- app_assoc.
Qed.

Lemma foldl_append_item sep acc items :
  foldl (append_item sep) (Some acc) items = Some (join [sep] (acc :: items)).
Proof.
  revert acc. induction items as [|x xs IH]; intros acc; [reflexivity|].
  cbn [foldl append_item]. rewrite IH. f_equal. apply join_app_head.
Qed.

Lemma appended_join sep items : appended sep items = join [sep] items.
Proof.
  unfold appended. destruct items as [|x xs]; [reflexivity|].
  cbn [foldl append_item]. by rewrite foldl_append_item.
Qed.

Lemma column_value_get r col : column_value r col = get r col.
Proof. unfold column_value, get. by destruct (r !! col). Qed.

Lemma canonical_row_eq r : canonical_row r = row_string r.
Proof.
  unfold canonical_row, row_string. rewrite appended_join.
  f_equal; try apply map_ext; try (intros col; apply column_value_get).
Qed.

Lemma canonical_string_eq rows : canonical_string rows = full_string rows.
Proof.
  unfold canonical_string, full_string. rewrite appended_join.
  f_equal. apply map_ext. intros r. apply canonical_row_eq.
Qed.

Lemma join_snoc sep (l : list str) x :
  l ≠ [] → join [sep] (l ++ [x]) = join [sep] l ++ sep :: x.
Proof.
  induction l as [|p l IH]; [done|]. intros _.
  destruct l as [|q l]; [reflexivity|].
  rewrite <- !app_comm_cons, join_cons. rewrite app_comm_cons, IH by done.
  rewrite join_cons. by rewrite <- app_assoc.
Qed.

Lemma time_recognized : TIME ∈ HASH_COLUMNS.
Proof. unfold TIME, HASH_COLUMNS. left. Qed.

(** ** Rows that agree on the recognized columns *)

Lemma agree_sort_key r1 r2 : agree r1 r2 → sort_key r1 = sort_key r2.
Proof.
  intros H. unfold sort_key, get. by rewrite (H TIME time_recognized).
Qed.

Lemma agree_row_string r1 r2 : agree r1 r2 → row_string r1 = row_string r2.
Proof.
  intros H. unfold row_string. f_equal.
  apply map_ext_in. intros col Hcol%list_elem_of_In.
  unfold get. by rewrite (H col Hcol).
Qed.

Lemma agree_full_string rows1 rows2 :
  Forall2 agree rows1 rows2 → full_string rows1 = full_string rows2.
Proof.
  intros H. unfold full_string. f_equal.
  induction H as [|r1 r2 l1 l2 Hr _ IH]; [done|].
  simpl. by rewrite (agree_row_string r1 r2 Hr), IH.
Qed.

Lemma agree_select_sorted rows1 rows2 :
  Forall2 agree rows1 rows2 → select_sorted rows1 = select_sorted rows2.
Proof.
  intros H. unfold select_sorted.
  rewrite (agree_full_string _ _ H), (Forall2_length _ _ _ H).
  destruct (Forall2_last _ _ _ H) as [r1 r2 Hr|]; [|done].
  binds. by rewrite (Hr TIME time_recognized).
Qed.

Lemma insert_keyed_agree k x1 x2 l1 l2 :
  agree x1 x2 → Forall2 keyed_agree l1 l2 →
  Forall2 keyed_agree (insert_keyed k x1 l1) (insert_keyed k x2 l2).
Proof.
  intros Hx H. induction H as [|[k1 y1] [k2 y2] l1 l2 [Hk Hy] Hl IH]; simpl.
  - by repeat constructor.
  - simpl in Hk. subst k2. destruct (key_leb k k1).
    + by repeat constructor.
    + constructor; [done | exact IH].
Qed.

Lemma sort_keyed_agree l1 l2 :
  Forall2 keyed_agree l1 l2 → Forall2 keyed_agree (sort_keyed l1) (sort_keyed l2).
Proof.
  induction 1 as [|[k1 y1] [k2 y2] l1 l2 [Hk Hy] Hl IH]; simpl; [constructor|].
  simpl in Hk. subst k2. by apply insert_keyed_agree.
Qed.

Lemma agree_sort_rows rows1 rows2 :
  Forall2 agree rows1 rows2 →
  match sort_rows rows1, sort_rows rows2 with
  | Ok s1, Ok s2 => Forall2 agree s1 s2
  | Raise e1, Raise e2 => e1 = e2
  | _, _ => False
  end.
Proof.
  intros H. rewrite !sort_rows_eq.
  assert (Hok : Forall (λ r, is_ok (sort_key r) = true) rows1
                ↔ Forall (λ r, is_ok (sort_key r) = true) rows2).
  { induction H as [|r1 r2 l1 l2 Hr _ IH]; [done|].
    rewrite !Forall_cons, IH, (agree_sort_key r1 r2 Hr). done. }
  destruct (decide (Forall _ rows1)) as [H1|H1].
  - rewrite decide_True by (by apply Hok).
    assert (Hk : Forall2 keyed_agree (keyed rows1) (keyed rows2)).
    { clear Hok H1. induction H as [|r1 r2 l1 l2 Hr _ IH]; [constructor|].
      simpl. constructor; [|exact IH]. split; [|exact Hr]. simpl.
      unfold key_of. by rewrite (agree_sort_key r1 r2 Hr). }
    apply sort_keyed_agree in Hk.
    induction Hk as [|p q l1 l2 [_ Hpq] _ IH]; simpl; by constructor.
  - rewrite decide_False; [done|]. by rewrite <- Hok.
Qed.

Lemma agree_select_day rows1 rows2 :
  Forall2 agree rows1 rows2 → select_day rows1 = select_day rows2.
Proof.
  intros H. apply agree_sort_rows in H. unfold select_day.
  destruct (sort_rows rows1) as [s1|e1], (sort_rows rows2) as [s2|e2];
    try done; binds.
  - by apply agree_select_sorted.
  - by subst.
Qed.

(** ** Distinct keys *)

Lemma filter_has_key_short rows k :
  NoDup (key_of <$> rows) → (length (filter (has_key k) rows) ≤ 1)%nat.
Proof.
  induction rows as [|r rows IH]; [simpl; lia|].
  rewrite fmap_cons, NoDup_cons. intros [Hr Hnd]. rewrite filter_cons.
  destruct (decide (has_key k r)) as [Hk|]; [|by apply IH].
  assert (Hnil : filter (has_key k) rows = []).
  { destruct (filter (has_key k) rows) as [|r' l] eqn:Hf; [done|].
    assert (Hin : r' ∈ filter (has_key k) rows) by (rewrite Hf; left).
    apply list_elem_of_filter in Hin as [Hk' Hin]. destruct Hr.
    apply list_elem_of_fmap. exists r'. split; [|done].
    unfold has_key, key_of in *. by rewrite Hk, Hk'. }
  rewrite Hnil. simpl. lia.
Qed.

Lemma distinct_keys_any_order rows rows' k :
  rows ≡ₚ rows' → NoDup (key_of <$> rows) →
  filter (has_key k) rows = filter (has_key k) rows'.
Proof.
  intros Hperm Hnd.
  pose proof (filter_has_key_short rows k Hnd) as Hlen.
  assert (Hp : filter (has_key k) rows ≡ₚ filter (has_key k) rows')
    by (by rewrite Hperm).
  destruct (filter (has_key k) rows) as [|r [|r' l]].
  - by apply Permutation_nil_l in Hp.
  - by apply Permutation_singleton_l in Hp.
  - simpl in Hlen. lia.
Qed.

(** ** Stripping *)

Lemma lstrip_head s : match lstrip s with [] => True | c :: _ => isspace c = false end.
Proof.
  induction s as [|c s IH]; simpl; [done|].
  destruct (isspace c) eqn:Hc; [exact IH | exact Hc].
Qed.

Lemma lstrip_nonspace c s : isspace c = false → lstrip (c :: s) = c :: s.
Proof. intros H. simpl. by rewrite H. Qed.

Lemma lstrip_lstrip s : lstrip (lstrip s) = lstrip s.
Proof.
  pose proof (lstrip_head s) as H. destruct (lstrip s) as [|c r]; [done|].
  by apply lstrip_nonspace.
Qed.

Lemma lstrip_nil_iff s : lstrip s = [] ↔ Forall (λ c, isspace c = true) s.
Proof.
  induction s as [|c s IH]; simpl; [by split|].
  destruct (isspace c) eqn:Hc.
  - rewrite IH. split; [by constructor | by intros [_ ?]%Forall_cons].
  - split; [discriminate|]. intros [? _]%Forall_cons. congruence.
Qed.

Lemma rstrip_nil_iff s : rstrip s = [] ↔ Forall (λ c, isspace c = true) s.
Proof.
  induction s as [|c s IH]; simpl; [by split|].
  destruct (rstrip s) as [|d r].
  - destruct (isspace c) eqn:Hc.
    + split; [|done]. intros _. constructor; [done|]. by apply IH.
    + split; [discriminate|]. intros [? _]%Forall_cons. congruence.
  - split; [discriminate|]. intros [_ H]%Forall_cons. by apply IH in H.
Qed.

Lemma rstrip_cons c s :
  rstrip (c :: s) = if decide (rstrip s = []) then (if isspace c then [] else [c])
                    else c :: rstrip s.
Proof. simpl. by destruct (rstrip s). Qed.

Lemma rstrip_rstrip s : rstrip (rstrip s) = rstrip s.
Proof.
  induction s as [|c s IH]; [done|].
  rewrite rstrip_cons. destruct (decide (rstrip s = [])) as [Hs|Hs].
  - destruct (isspace c) eqn:Hc; [done|]. simpl. by rewrite Hc.
  - rewrite rstrip_cons, IH. by rewrite decide_False.
Qed.

(** The two ends are stripped independently. *)
Lemma strip_comm s : rstrip (lstrip s) = lstrip (rstrip s).
Proof.
  induction s as [|c s IH]; [done|].
  rewrite rstrip_cons. simpl lstrip at 1. destruct (isspace c) eqn:Hc.
  - rewrite IH. destruct (decide (rstrip s = [])) as [->|Hs]; [done|].
    simpl. by rewrite Hc.
  - rewrite rstrip_cons. destruct (decide (rstrip s = [])).
    + simpl. by rewrite Hc.
    + simpl. by rewrite Hc.
Qed.

Lemma strip_strip s : strip (strip s) = strip s.
Proof.
  unfold strip. rewrite (strip_comm (rstrip (lstrip s))), rstrip_rstrip.
  by rewrite <- strip_comm, lstrip_lstrip.
Qed.

Lemma strip_nil_iff s : strip s = [] ↔ Forall (λ c, isspace c = true) s.
Proof.
  unfold strip. rewrite strip_comm, lstrip_nil_iff.
  rewrite <- rstrip_nil_iff, rstrip_rstrip. apply rstrip_nil_iff.
Qed.

Lemma strip_lstrip s : strip (lstrip s) = strip s.
Proof. unfold strip. by rewrite lstrip_lstrip. Qed.

Lemma strip_rstrip s : strip (rstrip s) = strip s.
Proof. unfold strip. by rewrite <- strip_comm, rstrip_rstrip. Qed.

Lemma lstrip_app a b :
  lstrip (a ++ b) = if decide (lstrip a = []) then lstrip b else lstrip a ++ b.
Proof.
  induction a as [|c a IH]; [done|]. simpl.
  destruct (isspace c); [exact IH|]. by rewrite decide_False.
Qed.

Lemma rstrip_app a b :
  rstrip (a ++ b) = if decide (rstrip b = []) then rstrip a else a ++ rstrip b.
Proof.
  induction a as [|c a IH]; simpl app.
  - by destruct (decide (rstrip b = [])) as [->|].
  - rewrite !rstrip_cons, IH. destruct (decide (rstrip b = [])) as [Hb|Hb].
    + done.
    + rewrite decide_False; [done|]. by destruct a.
Qed.

Lemma lstrip_suffix s : ∃ w, s = w ++ lstrip s ∧ Forall (λ c, isspace c = true) w.
Proof.
  induction s as [|c s (w & Hw & Hall)]; [by exists []|]. simpl.
  destruct (isspace c) eqn:Hc.
  - exists (c :: w). split; [by rewrite <- app_comm_cons, <- Hw | by constructor].
  - by exists [].
Qed.

Lemma rstrip_prefix s : ∃ w, s = rstrip s ++ w ∧ Forall (λ c, isspace c = true) w.
Proof.
  induction s as [|c s (w & Hw & Hall)]; [by exists []|].
  rewrite rstrip_cons. destruct (decide (rstrip s = [])) as [Hs|Hs].
  - destruct (isspace c) eqn:Hc.
    + exists (c :: s). split; [done|]. constructor; [done|]. by apply rstrip_nil_iff.
    + exists s. split; [done|]. by apply rstrip_nil_iff.
  - exists w. split; [by rewrite <- app_comm_cons, <- Hw | done].
Qed.

Lemma not_space_comma : isspace COMMA = false.
Proof. reflexivity. Qed.

Lemma space_newline : isspace NL = true.
Proof. reflexivity. Qed.

Lemma spaces_no_comma w : Forall (λ c, isspace c = true) w → COMMA ∉ w.
Proof.
  intros H Hin. rewrite Forall_forall in H. specialize (H _ Hin).
  by rewrite not_space_comma in H.
Qed.

(** ** Stripping and splitting *)

Lemma split_singleton sep s p : split sep s = [p] → p = s ∧ sep ∉ s.
Proof.
  revert p. induction s as [|c s IH]; intros p; simpl.
  - intros [= <-]. split; [done | apply not_elem_of_nil].
  - destruct (Z.eqb_spec c sep) as [->|Hc].
    + intros [= _ H]. by destruct (split_nonempty sep s).
    + destruct (split sep s) as [|w ws] eqn:Hs; [by intros [= <-]; destruct (split_nonempty sep s)|].
      intros [= <- ->]. destruct (IH w eq_refl) as [-> Hs'].
      split; [done|]. rewrite not_elem_of_cons. by split.
Qed.

Lemma cells_lstrip_aux l :
  Forall2 (λ a b, lstrip a = lstrip b) (split COMMA (lstrip l)) (split COMMA l).
Proof.
  induction l as [|c l IH]; [by repeat constructor|]. simpl lstrip.
  destruct (isspace c) eqn:Hc; [|by apply Forall_Forall2_diag, Forall_true].
  assert (Hne : c ≠ COMMA) by (intros ->; by rewrite not_space_comma in Hc).
  rewrite (split_cons_ne COMMA c l Hne).
  pose proof (split_nonempty COMMA l). destruct (split COMMA l) as [|h t]; [done|].
  inversion IH as [|a b la lb Hab Htl]; subst. simpl.
  constructor; [|exact Htl]. simpl. by rewrite Hc.
Qed.

Lemma cells_rstrip_aux l :
  Forall2 (λ a b, rstrip a = rstrip b) (split COMMA (rstrip l)) (split COMMA l).
Proof.
  induction l as [|c l IH]; [by repeat constructor|].
  rewrite rstrip_cons. destruct (decide (rstrip l = [])) as [Hl|Hl].
  - assert (Hsp : Forall (λ c, isspace c = true) l) by (by apply rstrip_nil_iff).
    pose proof (split_no_sep COMMA l (spaces_no_comma l Hsp)) as Hsplit.
    destruct (isspace c) eqn:Hc.
    + assert (Hne : c ≠ COMMA) by (intros ->; by rewrite not_space_comma in Hc).
      rewrite (split_cons_ne COMMA c l Hne), Hsplit. simpl.
      constructor; [|constructor]. rewrite rstrip_cons, decide_True by done.
      by rewrite Hc.
    + destruct (decide (c = COMMA)) as [->|Hne].
      * rewrite !split_cons_eq, Hsplit. simpl.
        constructor; [done|]. constructor; [by rewrite Hl | constructor].
      * rewrite !(split_cons_ne COMMA c) by done. rewrite Hsplit. simpl.
        constructor; [|constructor].
        rewrite !rstrip_cons, decide_True by done.
        rewrite decide_True by done. done.
  - destruct (decide (c = COMMA)) as [->|Hne].
    + rewrite !split_cons_eq. by constructor.
    + rewrite !(split_cons_ne COMMA c) by done.
      pose proof (split_nonempty COMMA l).
      pose proof (split_nonempty COMMA (rstrip l)).
      destruct (split COMMA l) as [|h t]; [done|].
      destruct (split COMMA (rstrip l)) as [|h' t']; [done|].
      inversion IH as [|a b la lb Hab Htl]; subst. simpl.
      constructor; [|exact Htl]. by rewrite !rstrip_cons, Hab.
Qed.

Lemma cells_lstrip l : cells_of (lstrip l) = cells_of l.
Proof.
  unfold cells_of. pose proof (cells_lstrip_aux l) as H.
  induction H as [|a b la lb Hab _ IH]; [done|].
  simpl. rewrite IH. f_equal. unfold strip. by rewrite Hab.
Qed.

Lemma cells_rstrip l : cells_of (rstrip l) = cells_of l.
Proof.
  unfold cells_of. pose proof (cells_rstrip_aux l) as H.
  induction H as [|a b la lb Hab _ IH]; [done|].
  simpl. rewrite IH. f_equal. unfold strip. by rewrite !strip_comm, Hab.
Qed.

(** A blank line is one stripped empty cell. *)
Lemma blank_cells l : Forall (λ c, isspace c = true) l ↔ cells_of l = [[]].
Proof.
  unfold cells_of. split.
  - intros H. rewrite (split_no_sep COMMA l (spaces_no_comma l H)). simpl.
    f_equal. by apply strip_nil_iff.
  - intros H. destruct (split COMMA l) as [|p [|q ps]] eqn:Hs; try discriminate.
    apply split_singleton in Hs as [-> _]. injection H as H.
    by apply strip_nil_iff.
Qed.

Lemma same_cells_blank l1 l2 :
  same_cells l1 l2 →
  Forall (λ c, isspace c = true) l1 ↔ Forall (λ c, isspace c = true) l2.
Proof. unfold same_cells. intros H. by rewrite !blank_cells, H. Qed.

(** ** Stripping a text of several lines *)

Lemma join_nonempty sep (l : list str) : l ≠ [] → l ≠ [[]] → join [sep] l ≠ [].
Proof.
  destruct l as [|p [|q l]]; [done| |].
  - simpl. intros _ H ->. by apply H.
  - intros _ _. rewrite join_cons. by destruct p.
Qed.

Lemma join_spaces (l : list str) :
  Forall (λ c, isspace c = true) (join [NL] l)
  ↔ Forall (λ line, Forall (λ c, isspace c = true) line) l.
Proof.
  induction l as [|p [|q l] IH].
  - simpl. split; constructor.
  - simpl. split; [by repeat constructor | by intros [? _]%Forall_cons].
  - rewrite join_cons, Forall_app, Forall_cons, IH, (Forall_cons _ p).
    pose proof space_newline. tauto.
Qed.

Lemma lstrip_lines_cons l l2 ls :
  lstrip_lines (l :: l2 :: ls)
  = match lstrip l with [] => lstrip_lines (l2 :: ls) | r => r :: l2 :: ls end.
Proof. reflexivity. Qed.

Lemma rstrip_lines_cons l l2 ls :
  rstrip_lines (l :: l2 :: ls)
  = if decide (rstrip (join [NL] (l2 :: ls)) = []) then [rstrip l]
    else l :: rstrip_lines (l2 :: ls).
Proof. reflexivity. Qed.

Lemma lstrip_lines_nonempty L : L ≠ [] → lstrip_lines L ≠ [].
Proof.
  induction L as [|l [|l2 ls] IH]; [done|done|]. intros _.
  rewrite lstrip_lines_cons. destruct (lstrip l); [by apply IH | done].
Qed.

Lemma rstrip_lines_nonempty L : L ≠ [] → rstrip_lines L ≠ [].
Proof.
  destruct L as [|l [|l2 ls]]; [done|done|]. intros _.
  rewrite rstrip_lines_cons. by destruct (decide _).
Qed.

Lemma lstrip_join L : lstrip (join [NL] L) = join [NL] (lstrip_lines L).
Proof.
  induction L as [|l [|l2 ls] IH]; [done|done|].
  rewrite join_cons, lstrip_app. rewrite lstrip_lines_cons.
  destruct (decide (lstrip l = [])) as [->|Hl].
  - simpl lstrip at 1. exact IH.
  - destruct (lstrip l) as [|c r]; [done|]. by rewrite join_cons.
Qed.

Lemma rstrip_join L : rstrip (join [NL] L) = join [NL] (rstrip_lines L).
Proof.
  induction L as [|l [|l2 ls] IH]; [done|done|].
  rewrite join_cons, rstrip_app, rstrip_cons. rewrite rstrip_lines_cons.
  destruct (decide (rstrip (join [NL] (l2 :: ls)) = [])) as [H|H].
  - rewrite space_newline. by rewrite decide_True.
  - rewrite decide_False by done. rewrite IH in *.
    pose proof (rstrip_lines_nonempty (l2 :: ls) ltac:(done)) as Hne.
    destruct (rstrip_lines (l2 :: ls)) as [|r rs] eqn:Hrs; [done|].
    by rewrite join_cons.
Qed.

Lemma no_newline_lstrip l : NL ∉ l → NL ∉ lstrip l.
Proof.
  destruct (lstrip_suffix l) as (w & Hw & _). intros H Hin. apply H.
  rewrite Hw. apply elem_of_app. by right.
Qed.

Lemma no_newline_rstrip l : NL ∉ l → NL ∉ rstrip l.
Proof.
  destruct (rstrip_prefix l) as (w & Hw & _). intros H Hin. apply H.
  rewrite Hw. apply elem_of_app. by left.
Qed.

Lemma lstrip_lines_no_newline L :
  Forall (λ l, NL ∉ l) L → Forall (λ l, NL ∉ l) (lstrip_lines L).
Proof.
  induction L as [|l [|l2 ls] IH]; [done| |].
  - intros [H _]%Forall_cons. constructor; [by apply no_newline_lstrip | done].
  - intros [H Hls]%Forall_cons. rewrite lstrip_lines_cons.
    pose proof (no_newline_lstrip l H) as H'.
    destruct (lstrip l) as [|c r]; [by apply IH | by constructor].
Qed.

Lemma rstrip_lines_no_newline L :
  Forall (λ l, NL ∉ l) L → Forall (λ l, NL ∉ l) (rstrip_lines L).
Proof.
  induction L as [|l [|l2 ls] IH]; [done| |].
  - intros [H _]%Forall_cons. constructor; [by apply no_newline_rstrip | done].
  - intros [H Hls]%Forall_cons. rewrite rstrip_lines_cons.
    destruct (decide _).
    + constructor; [by apply no_newline_rstrip | done].
    + constructor; [done | by apply IH].
Qed.

(** The lines of a stripped text. *)
Lemma split_strip_join L :
  L ≠ [] → Forall (λ l, NL ∉ l) L →
  split NL (strip (join [NL] L)) = rstrip_lines (lstrip_lines L).
Proof.
  intros Hne Hnl. unfold strip. rewrite lstrip_join, rstrip_join.
  apply split_join.
  - by apply rstrip_lines_nonempty, lstrip_lines_nonempty.
  - by apply rstrip_lines_no_newline, lstrip_lines_no_newline.
Qed.

Lemma lstrip_lines_same_cells L1 L2 :
  Forall2 same_cells L1 L2 →
  Forall2 same_cells (lstrip_lines L1) (lstrip_lines L2).
Proof.
  induction 1 as [|a b la lb Hab Hl IH]; [constructor|].
  destruct Hl as [|a2 b2 la lb Hab2 Hl].
  - constructor; [|constructor]. unfold same_cells in *.
    by rewrite !cells_lstrip.
  - rewrite (lstrip_lines_cons a), (lstrip_lines_cons b).
    pose proof (same_cells_blank a b Hab) as Hblank.
    rewrite <- !lstrip_nil_iff in Hblank.
    destruct (lstrip a) as [|c r] eqn:Ha, (lstrip b) as [|d s] eqn:Hb.
    + exact IH.
    + discriminate (proj1 Hblank eq_refl).
    + discriminate (proj2 Hblank eq_refl).
    + constructor; [|by constructor]. unfold same_cells in *.
      by rewrite <- Ha, <- Hb, !cells_lstrip.
Qed.

Lemma rstrip_lines_same_cells L1 L2 :
  Forall2 same_cells L1 L2 →
  Forall2 same_cells (rstrip_lines L1) (rstrip_lines L2).
Proof.
  induction 1 as [|a b la lb Hab Hl IH]; [constructor|].
  assert (Hr : same_cells (rstrip a) (rstrip b)).
  { unfold same_cells in *. by rewrite !cells_rstrip. }
  destruct Hl as [|a2 b2 la lb Hab2 Hl].
  - by repeat constructor.
  - rewrite (rstrip_lines_cons a), (rstrip_lines_cons b).
    assert (Hblank : rstrip (join [NL] (a2 :: la)) = []
                     ↔ rstrip (join [NL] (b2 :: lb)) = []).
    { rewrite !rstrip_nil_iff, !join_spaces.
      assert (H2 : Forall2 same_cells (a2 :: la) (b2 :: lb)) by (by constructor).
      clear -H2. induction H2 as [|x y lx ly Hxy _ IH2]; [done|].
      by rewrite !Forall_cons, IH2, (same_cells_blank x y Hxy). }
    destruct (decide (rstrip (join [NL] (a2 :: la)) = [])) as [Ha|Ha].
    + rewrite decide_True by (by apply Hblank). by repeat constructor.
    + rewrite decide_False by (by rewrite <- Hblank). by constructor.
Qed.

(** ** Reading rows from cells *)

Lemma cell_strip vals1 vals2 i :
  map strip vals1 = map strip vals2 → cell vals1 i = cell vals2 i.
Proof.
  intros H. unfold cell.
  assert (Hi : strip <$> (vals1 !! i) = strip <$> (vals2 !! i)).
  { assert (H' : strip <$> vals1 = strip <$> vals2) by exact H.
    by rewrite <- !list_lookup_fmap, H'. }
  destruct (vals1 !! i), (vals2 !! i); simpl in Hi; congruence.
Qed.

Lemma fill_row_strip header vals1 vals2 i r :
  map strip vals1 = map strip vals2 →
  fill_row i header vals1 r = fill_row i header vals2 r.
Proof.
  intros H. revert i r. induction header as [|h hs IH]; intros i r; [done|].
  simpl. by rewrite (cell_strip vals1 vals2 i H), IH.
Qed.

Lemma read_rows_cells text1 text2 :
  map cells_of (split NL (strip text1)) = map cells_of (split NL (strip text2)) →
  read_rows text1 = read_rows text2.
Proof.
  unfold read_rows. intros H.
  pose proof (split_nonempty NL (strip text1)) as Hn1.
  pose proof (split_nonempty NL (strip text2)) as Hn2.
  destruct (split NL (strip text1)) as [|h1 t1]; [done|].
  destruct (split NL (strip text2)) as [|h2 t2]; [done|].
  simpl in *. injection H as Hh Ht. unfold cells_of in Hh. rewrite Hh.
  clear Hn1 Hn2. revert t2 Ht. induction t1 as [|l1 t1 IH]; intros [|l2 t2] Ht; try done.
  simpl in Ht. injection Ht as Hl Ht. simpl.
  rewrite (IH t2 Ht). f_equal. by apply fill_row_strip.
Qed.

(** A rendered table read back: only the stripped cells matter. *)
Lemma render_same_rows t1 t2 :
  table_ok t1 → table_ok t2 →
  Forall2 (Forall2 same_stripped) t1 t2 →
  read_rows (render t1) = read_rows (render t2).
Proof.
  intros [Hne1 Hok1] [Hne2 Hok2] Hsame. apply read_rows_cells. unfold render.
  assert (Hnl : ∀ t, Forall (λ line, line ≠ [] ∧ Forall cell_ok line) t →
                     Forall (λ l, NL ∉ l) (map (join [COMMA]) t)).
  { intros t Ht. apply Forall_map. eapply Forall_impl; [exact Ht|].
    intros line [_ Hcells]. simpl. clear -Hcells.
    induction Hcells as [|c [|c2 cs] [_ Hc] Hcs IH].
    - apply not_elem_of_nil.
    - done.
    - rewrite join_cons. rewrite not_elem_of_app, not_elem_of_cons.
      split; [done|]. split; [done | exact IH]. }
  rewrite !split_strip_join; try (by apply Hnl); try (by destruct t1); try (by destruct t2).
  assert (Hlines : Forall2 same_cells (map (join [COMMA]) t1) (map (join [COMMA]) t2)).
  { clear Hne1 Hne2 Hnl. induction Hsame as [|r1 r2 l1 l2 Hr Hl IH]; [constructor|].
    apply Forall_cons in Hok1 as [[Hr1 Hc1] Hok1].
    apply Forall_cons in Hok2 as [[Hr2 Hc2] Hok2].
    simpl. constructor; [|by apply IH].
    unfold same_cells, cells_of.
    rewrite !split_join; try done.
    - clear -Hr. induction Hr as [|c1 c2 cs1 cs2 Hc _ IH]; [done|].
      simpl. by rewrite Hc, IH.
    - eapply Forall_impl; [exact Hc2|]. by intros c [? _].
    - eapply Forall_impl; [exact Hc1|]. by intros c [? _]. }
  apply lstrip_lines_same_cells, rstrip_lines_same_cells in Hlines.
  induction Hlines as [|a b la lb Hab _ IH]; [done|]. simpl. by rewrite Hab, IH.
Qed.

(** ** What a row holds *)

Lemma cell_stripped (vals : list str) (i : nat) : strip (cell vals i) = cell vals i.
Proof. unfold cell. destruct (vals !! i); [apply strip_strip | done]. Qed.

Lemma fill_row_stripped (header vals : list str) (i : nat) (r : row) :
  Forall (λ h, strip h = h) header →
  (∀ k v, r !! k = Some v → strip k = k ∧ strip v = v) →
  ∀ k v, fill_row i header vals r !! k = Some v → strip k = k ∧ strip v = v.
Proof.
  intros Hh. revert i r. induction Hh as [|h hs Hh _ IH]; intros i r Hr; [exact Hr|].
  simpl. apply IH. intros k v. rewrite lookup_insert.
  destruct (decide (h = k)) as [<-|]; [|by apply Hr].
  intros [= <-]. split; [exact Hh | apply cell_stripped].
Qed.

Lemma read_rows_stripped (text : str) (r : row) (k v : str) :
  r ∈ read_rows text → r !! k = Some v → strip k = k ∧ strip v = v.
Proof.
  unfold read_rows. intros Hr. apply list_elem_of_fmap in Hr as (line & -> & _).
  apply fill_row_stripped.
  - apply Forall_map, Forall_forall. intros h _. apply strip_strip.
  - intros k' v'. by rewrite lookup_empty.
Qed.

Lemma parse_date_key_strip t : parse_date_key (strip t) = parse_date_key t.
Proof. unfold parse_date_key. by rewrite strip_strip. Qed.

(** * The claims *)

(** ** C2: the selected day lies in the month *)

(** C2.  Whenever [select_day] returns (and it does return for every row
    set whose sort keys, anchor time field and canonical string are accepted
    and whose anchor month is not negative), the selected day is
    [int_val mod days_in_month + 1] with [int_val] the base-16 value of the
    first 8 hexadecimal digits of the digest, it lies between 1 and
    [days_in_month], and [days_in_month] is the Gregorian length of the
    month after the anchor's, leap Februaries included: 29 days in February
    2028, 28 in February 2026 and 2027. *)
Theorem selected_day_in_range (rows : list row) :
  (∀ r, select_day rows = Ok r →
     ∃ sorted last_row t last_month last_year,
       sort_rows rows = Ok sorted
       ∧ last sorted = Some last_row
       ∧ last_row !! TIME = Some t
       ∧ anchor_month_year (strip t) = Ok (last_month, last_year)
       ∧ 1 ≤ (next_month_year last_month last_year).1 ≤ 12
       ∧ Selection.days_in_month r
         = gregorian_month_days (next_month_year last_month last_year).2
                                (next_month_year last_month last_year).1
       ∧ Selection.int_val r = hex_value (take 8 (Selection.sha256 r))
       ∧ Selection.predicted_day r
         = Selection.int_val r mod Selection.days_in_month r + 1
       ∧ 1 ≤ Selection.predicted_day r ≤ Selection.days_in_month r)
  ∧ (∀ sorted last_row t last_month last_year,
       sort_rows rows = Ok sorted →
       last sorted = Some last_row →
       last_row !! TIME = Some t →
       anchor_month_year (strip t) = Ok (last_month, last_year) →
       0 ≤ last_month →
       is_ok (Utf8.encode (full_string sorted)) = true →
       ∃ r, select_day rows = Ok r)
  ∧ gregorian_month_days 2028 2 = 29
  ∧ gregorian_month_days 2026 2 = 28
  ∧ gregorian_month_days 2027 2 = 28.
Proof.
  split; [|split; [|by vm_compute]].
  - intros r Hr. apply select_day_run in Hr.
    destruct Hr as [sorted lr t m y d1 bytes nm ny Hsort Hlast Ht Hparse Hrange
                      Henc Hsha Hpre Hint Hday _ _ _ _].
    apply monthrange_Ok in Hrange as (Hm & Hdim & Hbound).
    exists sorted, lr, t, m, y. repeat split; try assumption; try apply Hm.
    + rewrite Hpre, Hsha, prefix_parses in Hint. injection Hint as <-.
      by rewrite Hsha.
    + rewrite Hday. pose proof (Z.mod_pos_bound (Selection.int_val r)
                                  (Selection.days_in_month r)). lia.
    + rewrite Hday. pose proof (Z.mod_pos_bound (Selection.int_val r)
                                  (Selection.days_in_month r)). lia.
  - intros. eapply select_day_returns; eauto.
Qed.

Lemma selected_day_in_range_witness :
  ∃ r, select_day rows_feb_2026 = Ok r
       ∧ 1 ≤ Selection.predicted_day r ≤ Selection.days_in_month r.
Proof.
  destruct (selected_day_in_range rows_feb_2026) as (Hbound & Hret & _).
  destruct (Hret (reverse rows_feb_2026) (default ∅ (last (reverse rows_feb_2026)))
              (lit "09/02/2026") 2 2026
              ltac:(by_vm) ltac:(by_vm) ltac:(by_vm)
              ltac:(by_vm) ltac:(lia) ltac:(by_vm)) as [r Hr].
  exists r. split; [exact Hr|].
  destruct (Hbound r Hr) as (sorted & lr & t & m & y & _ & _ & _ & _
                             & _ & _ & _ & _ & Hday).
  exact Hday.
Defined.

(** ** C4: month rollover *)

(** C4.  On every run that returns, with the anchor row's time field read as
    [(last_month, last_year)] and [last_month] a month of the calendar (at
    most 12; a run that returns has none below 0), the month the day is
    selected in follows the anchor's as the specification says: month 12 is
    followed by month 1 of year [last_year + 1], any other month [m] by
    month [m + 1] of year [last_year].  That month and year are the ones the
    result's label shows and the ones [days_in_month] is the length of; the
    time field read is that of the last row in sorted order. *)
Theorem month_rollover (rows : list row) (r : Selection.t) (last_month last_year : Z) :
  select_day rows = Ok r →
  anchor_month_year (Selection.last_date r) = Ok (last_month, last_year) →
  last_month ≤ 12 →
  (∃ next_mo next_yr,
     next_month_year last_month last_year = (next_mo, next_yr)
     ∧ rollover_as_stated last_month last_year (next_mo, next_yr)
     ∧ (last_month = 12 → next_mo = 1 ∧ next_yr = last_year + 1)
     ∧ (last_month ≠ 12 → next_mo = last_month + 1 ∧ next_yr = last_year)
     ∧ Selection.next_month r
       = zfill 2 (str_of_int next_mo) ++ [SLASH] ++ str_of_int next_yr
     ∧ Selection.days_in_month r = gregorian_month_days next_yr next_mo)
  ∧ (∃ sorted last_row t,
       sort_rows rows = Ok sorted
       ∧ last sorted = Some last_row
       ∧ last_row !! TIME = Some t
       ∧ Selection.last_date r = strip t).
Proof.
  intros Hr Hanchor Hdom. apply select_day_run in Hr.
  destruct Hr as [sorted lr t m y d1 bytes nm ny Hsort Hlast Ht Hparse Hrange
                    _ _ _ _ _ _ Hdate Hlabel _].
  rewrite Hdate, Hparse in Hanchor. injection Hanchor as -> ->.
  apply monthrange_Ok in Hrange as (_ & Hdays & _).
  split; [|by exists sorted, lr, t].
  exists nm, ny. subst nm ny.
  split; [by destruct (next_month_year last_month last_year)|].
  split; [|split; [|split; [|split]]]; try assumption.
  - unfold rollover_as_stated, next_month_year.
    destruct (Z.gtb_spec (last_month + 1) 12); simpl; split; intros;
      first [reflexivity | lia | f_equal; lia].
  - intros ->. by vm_compute.
  - intros Hne. unfold next_month_year.
    destruct (Z.gtb_spec (last_month + 1) 12); simpl; lia.
Qed.

Lemma month_rollover_witness :
  let r := returned (select_day (read_rows csv_dec_2026)) in
  (∃ next_mo next_yr,
     next_month_year 12 2026 = (next_mo, next_yr)
     ∧ rollover_as_stated 12 2026 (next_mo, next_yr)
     ∧ (12 = 12 → next_mo = 1 ∧ next_yr = 2026 + 1)
     ∧ (12 ≠ 12 → next_mo = 12 + 1 ∧ next_yr = 2026)
     ∧ Selection.next_month r
       = zfill 2 (str_of_int next_mo) ++ [SLASH] ++ str_of_int next_yr
     ∧ Selection.days_in_month r = gregorian_month_days next_yr next_mo)
  ∧ (∃ sorted last_row t,
       sort_rows (read_rows csv_dec_2026) = Ok sorted
       ∧ last sorted = Some last_row
       ∧ last_row !! TIME = Some t
       ∧ Selection.last_date r = strip t).
Proof.
  apply (month_rollover (read_rows csv_dec_2026)
           (returned (select_day (read_rows csv_dec_2026))) 12 2026);
    [by_vm | by_vm | lia].
Defined.

(** ** C6: the sort key on malformed dates *)

Lemma parse_date_key_shape t :
  (∀ p0 p1 p2, split SLASH (strip t) = [p0; p1; p2] → length p2 ≠ 4%nat) →
  parse_date_key t = Ok (0, 0, 0).
Proof.
  unfold parse_date_key. intros Hshape.
  destruct (split SLASH (strip t)) as [|p0 [|p1 [|p2 [|p3 ps]]]]; try reflexivity.
  destruct (Nat.eqb_spec (length p2) 4); [|reflexivity].
  by destruct (Hshape p0 p1 p2).
Qed.

(** C6.  [parse_date_key] returns the sentinel when the stripped field does
    not split into three parts or its last part is not 4 characters long,
    but a field of the right shape with a non-numeric part makes it raise
    [ValueError]: it does on "aa/bb/cccc", and one such row anywhere in the
    file makes the whole computation raise while sorting. *)
Theorem parse_date_key_non_numeric :
  parse_date_key (lit "aa/bb/cccc") = Raise ValueError
  ∧ parse_date_key (lit "12/ab/2026") = Raise ValueError
  ∧ compute_best_day (one_file csv_bad_date_first) (lit "a.csv") = Raise ValueError
  ∧ parse_date_key (lit "aa/bb") = Ok (0, 0, 0)
  ∧ parse_date_key (lit "aa/bb/cc") = Ok (0, 0, 0)
  ∧ (∀ t p0 p1 p2,
       split SLASH (strip t) = [p0; p1; p2] → length p2 = 4%nat →
       parse_date_key t = (y ← int p2; m ← int p1; d ← int p0; Ok (y, m, d))).
Proof.
  split; [by_vm|]. split; [by_vm|]. split; [by_vm|].
  split; [by_vm|]. split; [by_vm|].
  intros t p0 p1 p2 Hsplit Hlen. unfold parse_date_key.
  by rewrite Hsplit, Hlen.
Qed.

(** ** C7: no rows *)

Lemma select_day_nil : select_day [] = Raise IndexError.
Proof. reflexivity. Qed.

(** C7.  A file with no data row makes [compute_best_day] raise: [rows[-1]]
    has no row to return, and the [IndexError] it raises (the
    specification's EmptyInputError) reaches the caller.  A file whose
    stripped text has no newline has no data row. *)
Theorem empty_input_fails (fs : filesystem) (path text : str) :
  fs path = Some text →
  (read_rows text = [] → compute_best_day fs path = Raise IndexError)
  ∧ (NL ∉ strip text → read_rows text = [])
  ∧ select_day [] = Raise IndexError.
Proof.
  intros Hfs. split; [|split].
  - intros Hrows. unfold compute_best_day. rewrite Hfs; binds.
    rewrite Hrows. apply select_day_nil.
  - intros Hnl. unfold read_rows. rewrite (split_no_sep NL (strip text) Hnl). reflexivity.
  - reflexivity.
Qed.

Lemma empty_input_fails_witness :
  compute_best_day (one_file csv_header_only) (lit "a.csv") = Raise IndexError.
Proof.
  apply (empty_input_fails (one_file csv_header_only) (lit "a.csv") csv_header_only);
    by_vm.
Defined.

(** ** C10: the anchor's time field *)













(** ** C3: the canonical string *)

(** C3.  The string that is hashed is the specification's canonical string
    of the sorted rows: the values of the 39 columns of [HASH_COLUMNS], in
    that order, with a comma in front of each but the first, an absent
    column counting as the empty string, and the row strings with a pipe in
    front of each but the first, so that no separator ends the string.  The
    sorted rows are the rows read, in ascending key order. *)
Theorem canonical_string_hashed :
  (∀ rows, full_string rows = canonical_string rows)
  ∧ length HASH_COLUMNS = 39%nat
  ∧ NoDup HASH_COLUMNS
  ∧ (∀ (r : row) col, r !! col = None → column_value r col = [])
  ∧ canonical_row ∅ = repeat COMMA 38
  ∧ (∀ r, canonical_string [r] = canonical_row r)
  ∧ (∀ rows r, rows ≠ [] →
       canonical_string (rows ++ [r])
       = canonical_string rows ++ PIPE :: canonical_row r)
  ∧ (∀ rows r, select_day rows = Ok r →
       ∃ sorted bytes,
         sort_rows rows = Ok sorted
         ∧ sorted ≡ₚ rows
         ∧ ascending sorted
         ∧ Utf8.encode (canonical_string sorted) = Ok bytes
         ∧ Selection.sha256 r = Sha256.hexdigest bytes).
Proof.
  split; [|split; [|split; [|split; [|split; [|split; [|split]]]]]].
  - intros rows. by rewrite canonical_string_eq.
  - reflexivity.
  - compute_done.
  - intros r col H. unfold column_value. by rewrite H.
  - by_vm.
  - intros r. rewrite canonical_string_eq, canonical_row_eq. reflexivity.
  - intros rows r Hne. rewrite !canonical_string_eq, canonical_row_eq.
    unfold full_string. rewrite map_app. simpl map.
    apply join_snoc. by destruct rows.
  - intros rows r Hr. apply select_day_run in Hr.
    destruct Hr as [sorted lr t m y d1 bytes nm ny Hsort _ _ _ _ Henc Hsha
                      _ _ _ _ _ _ _].
    exists sorted, bytes.
    destruct (sort_rows_Ok _ _ Hsort) as (Hall & Hperm & Hsorted & _).
    repeat split; try assumption.
    + apply key_sorted_ascending; [|exact Hsorted]. by rewrite Hperm.
    + by rewrite canonical_string_eq.
Qed.

Lemma canonical_string_hashed_witness :
  ∃ sorted bytes,
    sort_rows rows_feb_2026 = Ok sorted
    ∧ sorted ≡ₚ rows_feb_2026
    ∧ ascending sorted
    ∧ Utf8.encode (canonical_string sorted) = Ok bytes
    ∧ Selection.sha256 (returned (select_day rows_feb_2026)) = Sha256.hexdigest bytes.
Proof.
  destruct canonical_string_hashed as (_ & _ & _ & _ & _ & _ & _ & H).
  apply (H rows_feb_2026 (returned (select_day rows_feb_2026))).
  by_vm.
Defined.

(** ** C5: the input order *)

(** Rows of one key keep their input order, so two files that differ in the
    order of two rows with the same date can hash differently. *)
Lemma tie_order_matters :
  ∃ r1 r2, compute_best_day (one_file csv_tie_ab) (lit "a.csv") = Ok r1
           ∧ compute_best_day (one_file csv_tie_ba) (lit "a.csv") = Ok r2
           ∧ read_rows csv_tie_ab ≡ₚ read_rows csv_tie_ba
           ∧ Selection.sha256 r1 ≠ Selection.sha256 r2.
Proof.
  exists (returned (compute_best_day (one_file csv_tie_ab) (lit "a.csv"))),
         (returned (compute_best_day (one_file csv_tie_ba) (lit "a.csv"))).
  split; [by_vm|]. split; [by_vm|]. split.
  - assert (read_rows csv_tie_ab = reverse (read_rows csv_tie_ba)) as ->
      by by_vm.
    apply reverse_Permutation.
  - vm_compute. discriminate.
Qed.

(** C5.  A permutation of the input rows that keeps, for every key, the rows
    of that key in the same relative order (any permutation at all when the
    keys are pairwise distinct) leaves the sorted list, hence the canonical
    string and the whole outcome, unchanged: the stable sort absorbs it. *)
Theorem stable_sort_absorbs_input_order (rows rows' : list row) :
  rows ≡ₚ rows' →
  ((∀ k, filter (has_key k) rows = filter (has_key k) rows')
   ∨ NoDup (key_of <$> rows)) →
  sort_rows rows = sort_rows rows'
  ∧ select_day rows = select_day rows'.
Proof.
  intros Hperm Hties.
  assert (Hf : ∀ k, filter (has_key k) rows = filter (has_key k) rows').
  { destruct Hties as [Hf|Hnd]; [exact Hf|].
    intros k. by apply distinct_keys_any_order. }
  pose proof (sort_rows_stable_eq rows rows' Hperm Hf) as Hsort.
  split; [exact Hsort|]. unfold select_day. by rewrite Hsort.
Qed.

Lemma stable_sort_absorbs_input_order_witness :
  sort_rows rows_feb_2026 = sort_rows (reverse rows_feb_2026)
  ∧ select_day rows_feb_2026 = select_day (reverse rows_feb_2026).
Proof.
  apply (stable_sort_absorbs_input_order rows_feb_2026 (reverse rows_feb_2026)).
  - symmetry. apply reverse_Permutation.
  - right. compute_done.
Defined.

(** ** C8: columns outside the schema *)

(** C8.  Two row lists that agree row by row on the 39 recognized columns,
    paired in file order or in sorted order, have the same outcome.
    Setting or deleting a column outside [HASH_COLUMNS] keeps a row in
    agreement with itself, so such columns reach neither the digest nor the
    selected day; a file with an extra column gives the result of the file
    without it. *)
Theorem unrecognized_columns_ignored :
  (∀ rows1 rows2, Forall2 agree rows1 rows2 → select_day rows1 = select_day rows2)
  ∧ (∀ rows1 rows2 sorted1 sorted2,
       sort_rows rows1 = Ok sorted1 → sort_rows rows2 = Ok sorted2 →
       Forall2 agree sorted1 sorted2 → select_day rows1 = select_day rows2)
  ∧ (∀ (r : row) col v,
       col ∉ HASH_COLUMNS → agree (<[col := v]> r) r ∧ agree (delete col r) r)
  ∧ compute_best_day (one_file csv_feb_2026) (lit "a.csv")
    = compute_best_day (one_file csv_feb_2026_plain) (lit "a.csv").
Proof.
  split; [|split; [|split]].
  - apply agree_select_day.
  - intros rows1 rows2 s1 s2 H1 H2 H. unfold select_day.
    rewrite H1, H2; binds. by apply agree_select_sorted.
  - intros r col v Hcol. split; intros c Hc.
    + apply lookup_insert_ne. by intros ->.
    + apply lookup_delete_ne. by intros ->.
  - by_vm.
Qed.

Lemma unrecognized_columns_ignored_witness :
  select_day (read_rows csv_feb_2026) = select_day (read_rows csv_feb_2026_plain).
Proof.
  destruct unrecognized_columns_ignored as (H & _).
  apply H. compute_done.
Defined.

(** ** C9: whitespace around cells *)

(** C9.  Every column name and every value of a row read from the file is
    stripped; the time field is stripped again where it is parsed, which
    changes nothing.  Two files written from tables of the same shape whose
    cells differ only in leading and trailing whitespace are read as the
    same rows, so [compute_best_day] returns the same outcome on them. *)
Theorem cell_whitespace_ignored :
  (∀ text (r : row) k v,
     r ∈ read_rows text → r !! k = Some v → strip k = k ∧ strip v = v)
  ∧ (∀ t, parse_date_key (strip t) = parse_date_key t)
  ∧ (∀ rows r, select_day rows = Ok r →
       strip (Selection.last_date r) = Selection.last_date r)
  ∧ (∀ t1 t2 (fs1 fs2 : filesystem) path1 path2,
       table_ok t1 → table_ok t2 →
       Forall2 (Forall2 same_stripped) t1 t2 →
       fs1 path1 = Some (render t1) → fs2 path2 = Some (render t2) →
       read_rows (render t1) = read_rows (render t2)
       ∧ compute_best_day fs1 path1 = compute_best_day fs2 path2).
Proof.
  split; [|split; [|split]].
  - apply read_rows_stripped.
  - apply parse_date_key_strip.
  - intros rows r Hr. apply select_day_run in Hr.
    destruct Hr as [sorted lr t m y d1 bytes nm ny _ _ _ _ _ _ _ _ _ _ _
                      Hdate _ _].
    rewrite Hdate. apply strip_strip.
  - intros t1 t2 fs1 fs2 path1 path2 Hok1 Hok2 Hsame Hfs1 Hfs2.
    pose proof (render_same_rows t1 t2 Hok1 Hok2 Hsame) as Hrows.
    split; [exact Hrows|]. unfold compute_best_day.
    rewrite Hfs1, Hfs2; binds. by rewrite Hrows.
Qed.

Lemma cell_whitespace_ignored_witness :
  read_rows (render table_plain) = read_rows (render table_spaced)
  ∧ compute_best_day (one_file (render table_plain)) (lit "a.csv")
    = compute_best_day (one_file (render table_spaced)) (lit "b.csv").
Proof.
  destruct cell_whitespace_ignored as (_ & _ & _ & H).
  apply (H table_plain table_spaced); first [reflexivity | compute_done].
Defined.

(** * Further properties of the script *)

(** ** Rows are dicts keyed by header name *)

Lemma last_index_lookup k header j :
  last_index k header = Some j → header !! j = Some k.
Proof.
  revert j. induction header as [|h hs IH]; intros j; simpl; [done|].
  destruct (last_index k hs) as [j'|].
  - intros [= <-]. by apply IH.
  - destruct (decide (h = k)) as [->|]; [|done]. by intros [= <-].
Qed.

Lemma last_index_None k header : last_index k header = None ↔ k ∉ header.
Proof.
  induction header as [|h hs IH]; simpl.
  - split; [intros _; apply not_elem_of_nil | done].
  - rewrite not_elem_of_cons. destruct (last_index k hs) as [j|].
    + split; [done|]. intros [_ H]. by apply IH in H.
    + destruct (decide (h = k)) as [->|Hne].
      * split; [done | by intros [? _]].
      * split; [|done]. intros _. split; [done | by apply IH].
Qed.

Lemma last_index_last k header j j' :
  last_index k header = Some j → (j < j')%nat → header !! j' ≠ Some k.
Proof.
  revert j j'. induction header as [|h hs IH]; intros j j'; simpl; [done|].
  destruct (last_index k hs) as [i|] eqn:Hi.
  - intros [= <-] Hlt. destruct j' as [|j']; [lia|]. simpl.
    apply (IH i); [done | lia].
  - destruct (decide (h = k)) as [->|]; [|done]. intros [= <-] Hlt.
    destruct j' as [|j']; [lia|]. simpl. intros Hj.
    apply last_index_None in Hi. apply Hi. by eapply list_elem_of_lookup_2.
Qed.

Lemma fill_row_lookup (i : nat) (header vals : list str) (r : row) (k : str) :
  fill_row i header vals r !! k
  = match last_index k header with
    | Some j => Some (cell vals (i + j))
    | None => r !! k
    end.
Proof.
  revert i r. induction header as [|h hs IH]; intros i r; simpl; [done|].
  rewrite IH. destruct (last_index k hs) as [j|].
  - do 2 f_equal. lia.
  - rewrite lookup_insert. destruct (decide (h = k)) as [->|].
    + by rewrite Nat.add_0_r.
    + done.
Qed.

(** X1.  A data line becomes a dict: a name of the header maps to the stripped
    cell under its last occurrence, to the empty string when the line is
    too short; a name outside the header is absent; cells beyond the
    header are dropped. *)
Theorem row_lookup_by_name (text : str) (n : nat) (line : str) :
  let lines := split NL (strip text) in
  let header := map strip (split COMMA (hd [] lines)) in
  tl lines !! n = Some line →
  ∃ r : row,
    read_rows text !! n = Some r
    ∧ (∀ k, k ∉ header → r !! k = None)
    ∧ (∀ k j, header !! j = Some k → (∀ j', (j < j')%nat → header !! j' ≠ Some k) →
         r !! k = Some (match split COMMA line !! j with
                        | Some v => strip v
                        | None => []
                        end)).
Proof.
  intros lines header Hline.
  exists (fill_row 0 header (split COMMA line) ∅). split; [|split].
  - unfold read_rows. fold lines. fold header.
    assert (H : (λ l, fill_row 0 header (split COMMA l) ∅) <$> tl lines
                = map (λ l, fill_row 0 header (split COMMA l) ∅) (tl lines)) by done.
    rewrite <- H, list_lookup_fmap, Hline. done.
  - intros k Hk. rewrite fill_row_lookup.
    apply last_index_None in Hk. by rewrite Hk, lookup_empty.
  - intros k j Hj Hlast. rewrite fill_row_lookup.
    destruct (last_index k header) as [i|] eqn:Hi.
    + assert (i = j) as ->.
      { destruct (Nat.lt_total i j) as [Hlt|[->|Hgt]]; [|done|].
        - by destruct (last_index_last _ _ _ _ Hi Hlt).
        - destruct (Hlast i Hgt). by apply last_index_lookup. }
      done.
    + apply last_index_None in Hi. destruct Hi. by eapply list_elem_of_lookup_2.
Qed.

Lemma row_lookup_by_name_witness :
  ∃ r : row,
    read_rows csv_feb_2026 !! 1%nat = Some r
    ∧ r !! lit "extra" = None
    ∧ r !! lit "note" = Some (lit "first").
Proof.
  destruct (row_lookup_by_name csv_feb_2026 1 (lit "08/02/2026,2026,first")
              ltac:(by_vm)) as (r & Hr & Habs & Hval).
  exists r. split; [exact Hr|]. split.
  - apply Habs. compute_done.
  - apply (Hval (lit "note") 2%nat); [by_vm|].
    intros [|[|[|j']]] Hlt; try lia; by_vm || done.
Defined.

Lemma fill_row_pairs (cols : list (str * str)) :
  NoDup cols.*1 →
  fill_row 0 cols.*1 cols.*2 ∅
  = list_to_map ((λ p, (p.1, strip p.2)) <$> cols).
Proof.
  intros Hnd. apply map_eq. intros k. rewrite fill_row_lookup.
  assert (Hfst : ((λ p : str * str, (p.1, strip p.2)) <$> cols).*1 = cols.*1).
  { rewrite <- list_fmap_compose. by apply list_fmap_ext. }
  destruct (last_index k cols.*1) as [j|] eqn:Hj.
  - apply last_index_lookup in Hj. rewrite list_lookup_fmap in Hj.
    destruct (cols !! j) as [[k' v]|] eqn:Hc; [|done]. simpl in Hj.
    injection Hj as ->. symmetry. apply elem_of_list_to_map_1.
    + by rewrite Hfst.
    + unfold cell. rewrite Nat.add_0_l, list_lookup_fmap, Hc. simpl.
      apply list_elem_of_fmap. exists (k, v). split; [done|].
      by eapply list_elem_of_lookup_2.
  - rewrite lookup_empty. symmetry. apply not_elem_of_list_to_map_1.
    rewrite Hfst. by apply last_index_None.
Qed.

(** X2.  Values are looked up by name, not by position: with distinct header
    names, the dict of a line does not depend on the order in which the
    columns come. *)
Theorem column_order_irrelevant (cols cols' : list (str * str)) :
  NoDup cols.*1 → cols ≡ₚ cols' →
  fill_row 0 cols.*1 cols.*2 ∅ = fill_row 0 cols'.*1 cols'.*2 ∅.
Proof.
  intros Hnd Hperm.
  assert (Hnd' : NoDup cols'.*1) by (by rewrite <- Hperm).
  rewrite !fill_row_pairs by done.
  apply list_to_map_proper.
  - rewrite <- list_fmap_compose.
    assert (H : (fst ∘ (λ p : str * str, (p.1, strip p.2))) <$> cols = cols.*1)
      by (by apply list_fmap_ext).
    by rewrite H.
  - by rewrite Hperm.
Qed.

Lemma column_order_irrelevant_witness :
  fill_row 0 [lit "time"; lit "year"] [lit "08/02/2026"; lit " 2026"] ∅
  = fill_row 0 [lit "year"; lit "time"] [lit " 2026"; lit "08/02/2026"] ∅.
Proof.
  apply (column_order_irrelevant
           [(lit "time", lit "08/02/2026"); (lit "year", lit " 2026")]
           [(lit "year", lit " 2026"); (lit "time", lit "08/02/2026")]).
  - compute_done.
  - apply Permutation_swap.
Defined.

(** ** Failures of the anchor step and of the calendar *)

Lemma parse_date_key_empty : parse_date_key [] = Ok (0, 0, 0).
Proof. reflexivity. Qed.

Lemma sort_rows_perm_of_ok rows :
  Forall (λ r, is_ok (sort_key r) = true) rows →
  ∃ sorted, sort_rows rows = Ok sorted ∧ sorted ≡ₚ rows.
Proof.
  intros Hall. rewrite sort_rows_eq, decide_True by done.
  eexists. split; [done|]. by rewrite sort_keyed_perm, keyed_snd.
Qed.

(** X3.  A file with at least one data line whose header has no [time] column
    makes [compute_best_day] raise [KeyError]: every row sorts on the
    sentinel key, and the anchor row has no [time] entry. *)
Theorem missing_time_column (fs : filesystem) (path text : str) :
  let lines := split NL (strip text) in
  fs path = Some text →
  TIME ∉ map strip (split COMMA (hd [] lines)) →
  tl lines ≠ [] →
  compute_best_day fs path = Raise KeyError.
Proof.
  intros lines Hfs Hhdr Hdata. unfold compute_best_day. rewrite Hfs; binds.
  assert (Hrows : Forall (λ r : row, r !! TIME = None) (read_rows text)).
  { unfold read_rows. fold lines. apply Forall_map, Forall_forall.
    intros line _. simpl. rewrite fill_row_lookup.
    apply last_index_None in Hhdr. by rewrite Hhdr, lookup_empty. }
  assert (Hne : read_rows text ≠ []).
  { unfold read_rows. fold lines. by destruct (tl lines). }
  destruct (sort_rows_perm_of_ok (read_rows text)) as (sorted & Hsort & Hperm).
  { eapply Forall_impl; [exact Hrows|]. intros r Hr. simpl in Hr.
    unfold sort_key, get. by rewrite Hr. }
  unfold select_day, select_sorted. rewrite Hsort; binds.
  destruct (last sorted) as [lr|] eqn:Hlast.
  - binds. assert (Hin : lr ∈ read_rows text).
    { rewrite <- Hperm. apply last_Some in Hlast as [l' ->].
      apply elem_of_app. right. left. }
    rewrite Forall_forall in Hrows. by rewrite (Hrows lr Hin).
  - apply last_None in Hlast. subst sorted.
    apply Permutation_nil_l in Hperm. by destruct Hne.
Qed.

Lemma missing_time_column_witness :
  compute_best_day (one_file csv_no_time) (lit "a.csv") = Raise KeyError.
Proof.
  apply (missing_time_column (one_file csv_no_time) (lit "a.csv") csv_no_time).
  - reflexivity.
  - compute_done.
  - by_vm || (vm_compute; discriminate).
Defined.

(** X4.  An anchor whose month part reads as a negative number passes the
    anchor step and is rejected by the calendar: the run raises
    [IllegalMonthError]. *)
Theorem negative_month_rejected
    (rows sorted : list row) (last_row : row) (t : str) (last_month last_year : Z) :
  sort_rows rows = Ok sorted →
  last sorted = Some last_row →
  last_row !! TIME = Some t →
  anchor_month_year (strip t) = Ok (last_month, last_year) →
  last_month < 0 →
  select_day rows = Raise IllegalMonthError.
Proof.
  intros Hsort Hlast Ht Hparse Hneg. unfold select_day, select_sorted.
  rewrite Hsort; binds. rewrite Hlast; binds. rewrite Ht; binds.
  rewrite Hparse; binds. unfold next_month_year.
  destruct (Z.gtb_spec (last_month + 1) 12); [lia|].
  unfold Calendar.monthrange.
  destruct (Z.leb_spec 1 (last_month + 1)); [lia|]. reflexivity.
Qed.

Lemma negative_month_rejected_witness :
  select_day (read_rows csv_negative_month) = Raise IllegalMonthError.
Proof.
  apply (negative_month_rejected (read_rows csv_negative_month)
           (read_rows csv_negative_month)
           (default ∅ (last (read_rows csv_negative_month)))
           (lit "01/-5/2026") (-5) 2026); first [by_vm | lia].
Defined.

(** ** The exceptions a run can raise *)

Lemma select_day_raise rows e :
  select_day rows = Raise e →
  e = ValueError ∨ e = IndexError ∨ e = KeyError ∨ e = IllegalMonthError
  ∨ e = UnicodeEncodeError.
Proof.
  unfold select_day, select_sorted.
  destruct (sort_rows rows) as [sorted|e0] eqn:Hsort; binds.
  2:{ intros [= <-]. rewrite sort_rows_eq in Hsort.
      destruct (decide _); [done|]. injection Hsort as <-. auto. }
  destruct (last sorted) as [lr|]; binds; [|intros [= <-]; auto].
  destruct (lr !! TIME) as [t|]; binds; [|intros [= <-]; auto].
  destruct (anchor_month_year (strip t)) as [[m y]|e1] eqn:Ha; binds.
  2:{ intros [= <-]. unfold anchor_month_year in Ha.
      destruct (split SLASH (strip t) !! 1%nat) as [p1|]; binds in Ha;
        [|injection Ha as <-; auto].
      destruct (int p1) as [mv|e2] eqn:H1; binds in Ha;
        [|injection Ha as <-; apply int_raise in H1 as ->; auto].
      destruct (split SLASH (strip t) !! 2%nat) as [p2|]; binds in Ha;
        [|injection Ha as <-; auto].
      destruct (int p2) as [yv|e3] eqn:H2; binds in Ha; [done|].
      injection Ha as <-. apply int_raise in H2 as ->. auto. }
  destruct (next_month_year m y) as [nm ny].
  destruct (Calendar.monthrange ny nm) as [[d1 dim]|e4] eqn:Hr; binds.
  2:{ intros [= <-]. unfold Calendar.monthrange in Hr.
      destruct (negb _); [|done]. injection Hr as <-. auto 6. }
  destruct (Utf8.encode (full_string sorted)) as [bytes|e5] eqn:He; binds.
  2:{ intros [= <-]. unfold Utf8.encode in He.
      destruct (Utf8.encode_chars _); [done|]. injection He as <-. auto 6. }
  rewrite prefix_parses; binds. discriminate.
Qed.

Lemma encode_char_scalar c : scalar c → is_Some (Utf8.encode_char c).
Proof.
  unfold scalar, Utf8.encode_char. intros Hc.
  destruct (Z.ltb_spec c 0); [lia|].
  destruct (Z.ltb_spec c 128); [done|].
  destruct (Z.ltb_spec c 2048); [done|].
  destruct (Z.ltb_spec c 65536).
  - destruct (Z.leb_spec 55296 c), (Z.leb_spec c 57343); simpl; try done. lia.
  - destruct (Z.ltb_spec c 1114112); [done | lia].
Qed.

Lemma encode_chars_scalar s : Forall scalar s → is_Some (Utf8.encode_chars s).
Proof.
  induction 1 as [|c s Hc _ [bs IH]]; simpl; [done|].
  destruct (encode_char_scalar c Hc) as [b ->]. by rewrite IH.
Qed.

Section sublists.
Context (P : Z → Prop).

Lemma Forall_lstrip s : Forall P s → Forall P (lstrip s).
Proof.
  destruct (lstrip_suffix s) as (w & Hw & _). intros H. rewrite Hw in H.
  by apply Forall_app in H as [_ ?].
Qed.

Lemma Forall_rstrip s : Forall P s → Forall P (rstrip s).
Proof.
  destruct (rstrip_prefix s) as (w & Hw & _). intros H. rewrite Hw in H.
  by apply Forall_app in H as [? _].
Qed.

Lemma Forall_strip s : Forall P s → Forall P (strip s).
Proof. intros H. by apply Forall_rstrip, Forall_lstrip. Qed.

Lemma Forall_split sep s : Forall P s → Forall (Forall P) (split sep s).
Proof.
  induction 1 as [|c s Hc _ IH]; simpl; [by repeat constructor|].
  destruct (c =? sep); [by constructor|].
  destruct IH as [|w ws Hw Hws]; by repeat constructor.
Qed.

Lemma Forall_join sep parts :
  Forall P sep → Forall (Forall P) parts → Forall P (join sep parts).
Proof.
  intros Hsep. induction 1 as [|p [|q ps] Hp Hps IH]; simpl; [done|done|].
  apply Forall_app. split; [done|]. apply Forall_app. by split.
Qed.

Lemma Forall_cell vals i : Forall (Forall P) vals → Forall P (cell vals i).
Proof.
  intros H. unfold cell. destruct (vals !! i) as [v|] eqn:Hv; [|done].
  apply Forall_strip. rewrite Forall_forall in H. apply H.
  by eapply list_elem_of_lookup_2.
Qed.

Lemma fill_row_values (header vals : list str) (i : nat) (r : row) :
  Forall (Forall P) vals →
  (∀ k v, r !! k = Some v → Forall P v) →
  ∀ k v, fill_row i header vals r !! k = Some v → Forall P v.
Proof.
  intros Hvals. revert i r. induction header as [|h hs IH]; intros i r Hr; [exact Hr|].
  simpl. apply IH. intros k v. rewrite lookup_insert.
  destruct (decide (h = k)) as [<-|]; [|by apply Hr].
  intros [= <-]. by apply Forall_cell.
Qed.

Lemma read_rows_values (text : str) (r : row) (k v : str) :
  Forall P text → r ∈ read_rows text → r !! k = Some v → Forall P v.
Proof.
  intros Htext Hr. unfold read_rows in Hr.
  apply list_elem_of_fmap in Hr as (line & -> & Hline).
  apply fill_row_values.
  - apply Forall_split.
    pose proof (Forall_split NL _ (Forall_strip _ Htext)) as H.
    destruct (split NL (strip text)) as [|h t]; [by apply elem_of_nil in Hline|].
    simpl in Hline. apply Forall_cons in H as [_ H].
    rewrite Forall_forall in H. by apply H.
  - intros k' v'. by rewrite lookup_empty.
Qed.

Lemma full_string_values (rows : list row) :
  P COMMA → P PIPE →
  Forall (λ r : row, ∀ k v, r !! k = Some v → Forall P v) rows →
  Forall P (full_string rows).
Proof.
  intros Hc Hp Hrows. unfold full_string. apply Forall_join; [by constructor|].
  apply Forall_map. eapply Forall_impl; [exact Hrows|]. intros r Hr. simpl.
  unfold row_string. apply Forall_join; [by constructor|].
  apply Forall_map, Forall_forall. intros col _. unfold get.
  destruct (r !! col) as [v|] eqn:Hv; simpl; [by eapply Hr | done].
Qed.

End sublists.

(** X5.  The canonical string is made of code points of the file, commas and
    pipes; so for a text without surrogates (every text decoded from UTF-8)
    the encoder cannot fail, and a run raises nothing but [ValueError],
    [IndexError], [KeyError] or [IllegalMonthError]. *)
Theorem run_exceptions (text : str) (e : exn) :
  Forall scalar text →
  select_day (read_rows text) = Raise e →
  e = ValueError ∨ e = IndexError ∨ e = KeyError ∨ e = IllegalMonthError.
Proof.
  intros Htext Hrun. pose proof (select_day_raise _ _ Hrun) as He.
  assert (e ≠ UnicodeEncodeError); [|tauto].
  intros ->. unfold select_day, select_sorted in Hrun.
  destruct (sort_rows (read_rows text)) as [sorted|e0] eqn:Hsort; binds in Hrun.
  2:{ injection Hrun as ->. rewrite sort_rows_eq in Hsort.
      by destruct (decide _). }
  destruct (sort_rows_Ok _ _ Hsort) as (_ & Hperm & _).
  assert (Henc : is_Some (Utf8.encode_chars (full_string sorted))).
  { apply encode_chars_scalar, full_string_values.
    - unfold scalar, COMMA. lia.
    - unfold scalar, PIPE. lia.
    - rewrite Hperm. apply Forall_forall. intros r Hr k v.
      exact (read_rows_values scalar text r k v Htext Hr). }
  destruct Henc as [bytes Henc].
  destruct (last sorted) as [lr|]; binds in Hrun; [|done].
  destruct (lr !! TIME) as [t|]; binds in Hrun; [|done].
  destruct (anchor_month_year (strip t)) as [[m y]|e1] eqn:Ha; binds in Hrun.
  2:{ injection Hrun as ->. unfold anchor_month_year in Ha.
      destruct (split SLASH (strip t) !! 1%nat) as [p1|]; binds in Ha; [|done].
      destruct (int p1) as [mv|e2] eqn:H1; binds in Ha;
        [|injection Ha as ->; by apply int_raise in H1].
      destruct (split SLASH (strip t) !! 2%nat) as [p2|]; binds in Ha; [|done].
      destruct (int p2) as [yv|e3] eqn:H2; binds in Ha; [done|].
      injection Ha as ->. by apply int_raise in H2. }
  destruct (next_month_year m y) as [nm ny].
  destruct (Calendar.monthrange ny nm) as [[d1 dim]|e4] eqn:Hr; binds in Hrun.
  2:{ injection Hrun as ->. unfold Calendar.monthrange in Hr.
      by destruct (negb _). }
  unfold Utf8.encode in Hrun. rewrite Henc in Hrun; binds in Hrun.
  rewrite prefix_parses in Hrun; binds in Hrun. done.
Qed.

Lemma run_exceptions_witness :
  IllegalMonthError = ValueError ∨ IllegalMonthError = IndexError
  ∨ IllegalMonthError = KeyError ∨ IllegalMonthError = IllegalMonthError.
Proof.
  apply (run_exceptions csv_negative_month IllegalMonthError).
  - compute_done.
  - by_vm.
Defined.

(** ** The fields of a result *)

Lemma hex_digit_bound c : is_hex c → 0 ≤ hex_digit c < 16.
Proof.
  unfold is_hex, hex_digit. intros H. destruct (Z.leb_spec c 57); lia.
Qed.

Lemma hex_fold_bound s acc :
  Forall is_hex s → 0 ≤ acc →
  0 ≤ fold_left (λ a c, a * 16 + hex_digit c) s acc
  < (acc + 1) * 16 ^ Z.of_nat (length s).
Proof.
  intros Hs. revert acc. induction Hs as [|c s Hc _ IH]; intros acc Hacc.
  - simpl. lia.
  - pose proof (hex_digit_bound c Hc). cbn [fold_left length].
    specialize (IH (acc * 16 + hex_digit c) ltac:(lia)).
    rewrite Nat2Z.inj_succ, Z.pow_succ_r by lia.
    assert (0 < 16 ^ Z.of_nat (length s)) by (apply Z.pow_pos_nonneg; lia).
    nia.
Qed.

(** X6.  The digest is 64 lowercase hexadecimal digits, the prefix its first 8,
    and [int_val] their base-16 value, below [2 ^ 32]. *)
Theorem digest_fields (rows : list row) (r : Selection.t) :
  select_day rows = Ok r →
  length (Selection.sha256 r) = 64%nat
  ∧ Forall is_hex (Selection.sha256 r)
  ∧ Selection.prefix r = take 8 (Selection.sha256 r)
  ∧ length (Selection.prefix r) = 8%nat
  ∧ Selection.int_val r = hex_value (Selection.prefix r)
  ∧ 0 ≤ Selection.int_val r < 2 ^ 32.
Proof.
  intros Hr. apply select_day_run in Hr.
  destruct Hr as [sorted lr t m y d1 bytes nm ny _ _ _ _ _ _ Hsha Hpre Hint
                    _ _ _ _ _].
  destruct (hexdigest_hex bytes) as [Hhex Hlen]. rewrite <- Hsha in Hhex, Hlen.
  assert (Hplen : length (Selection.prefix r) = 8%nat).
  { rewrite Hpre, length_take, Hlen. reflexivity. }
  assert (Hphex : Forall is_hex (Selection.prefix r)).
  { rewrite Hpre. by apply Forall_take. }
  assert (Hval : Selection.int_val r = hex_value (Selection.prefix r)).
  { rewrite int16_hex in Hint; [by injection Hint|done|].
    intros Hnil. by rewrite Hnil in Hplen. }
  repeat split; try assumption.
  - rewrite Hval. by apply hex_fold_bound.
  - rewrite Hval. pose proof (hex_fold_bound _ 0 Hphex ltac:(lia)) as H.
    rewrite Hplen in H. unfold hex_value. lia.
Qed.

Lemma digest_fields_witness :
  0 ≤ Selection.int_val (returned (select_day rows_feb_2026)) < 2 ^ 32.
Proof.
  apply (digest_fields rows_feb_2026 (returned (select_day rows_feb_2026))).
  by_vm.
Defined.

Lemma two_digits n :
  0 ≤ n ≤ 99 →
  length (zfill 2 (str_of_int n)) = 2%nat ∧ int (zfill 2 (str_of_int n)) = Ok n.
Proof.
  intros Hn.
  assert (H : Forall (λ n, length (zfill 2 (str_of_int n)) = 2%nat
                           ∧ int (zfill 2 (str_of_int n)) = Ok n) (seqZ 0 100))
    by compute_done.
  rewrite Forall_forall in H. apply H. apply elem_of_seqZ. lia.
Qed.

(** X7.  The result sentence ends in [DD-MM-YYYY] with a two-character day and a
    two-character month that read back, through [int], as the selected day
    and as a month between 1 and 12; the label is the same month and year
    around a slash. *)
Theorem result_reads_back (rows : list row) (r : Selection.t) :
  select_day rows = Ok r →
  ∃ dd mm yyyy next_mo,
    Selection.result r
    = lit "Best Purchase Day Next Month: " ++ dd ++ [MINUS] ++ mm ++ [MINUS] ++ yyyy
    ∧ Selection.next_month r = mm ++ [SLASH] ++ yyyy
    ∧ length dd = 2%nat ∧ length mm = 2%nat
    ∧ int dd = Ok (Selection.predicted_day r)
    ∧ int mm = Ok next_mo ∧ 1 ≤ next_mo ≤ 12.
Proof.
  intros Hr. apply select_day_run in Hr.
  destruct Hr as [sorted lr t m y d1 bytes nm ny _ _ _ _ Hrange _ _ _ _
                    Hday _ _ Hlabel Hres].
  apply monthrange_Ok in Hrange as (Hm & _ & Hdim).
  assert (Hd : 1 ≤ Selection.predicted_day r ≤ 31).
  { rewrite Hday. pose proof (Z.mod_pos_bound (Selection.int_val r)
                                (Selection.days_in_month r)). lia. }
  destruct (two_digits (Selection.predicted_day r) ltac:(lia)) as [Hl1 Hi1].
  destruct (two_digits nm ltac:(lia)) as [Hl2 Hi2].
  exists (zfill 2 (str_of_int (Selection.predicted_day r))),
         (zfill 2 (str_of_int nm)), (str_of_int ny), nm.
  repeat split; try assumption; apply Hm.
Qed.

Lemma result_reads_back_witness :
  ∃ dd mm yyyy next_mo,
    Selection.result (returned (select_day rows_feb_2026))
    = lit "Best Purchase Day Next Month: " ++ dd ++ [MINUS] ++ mm ++ [MINUS] ++ yyyy
    ∧ Selection.next_month (returned (select_day rows_feb_2026)) = mm ++ [SLASH] ++ yyyy
    ∧ length dd = 2%nat ∧ length mm = 2%nat
    ∧ int dd = Ok (Selection.predicted_day (returned (select_day rows_feb_2026)))
    ∧ int mm = Ok next_mo ∧ 1 ≤ next_mo ≤ 12.
Proof.
  apply (result_reads_back rows_feb_2026). by_vm.
Defined.

(** ** Well-formed dates *)

Lemma is_digit_in_base c : is_digit c → digit_in_base 10 c = Some (c - 48).
Proof.
  unfold is_digit, digit_in_base, digit_value. intros Hc.
  destruct (Z.leb_spec 48 c), (Z.leb_spec c 57); simpl; try lia.
  destruct (Z.ltb_spec (c - 48) 10); [reflexivity | lia].
Qed.

Lemma to_ascii_decimal_digits s : Forall is_digit s → to_ascii_decimal s = s.
Proof.
  induction 1 as [|c s Hc _ IH]; simpl; [reflexivity|].
  destruct (Z.ltb_spec c 127); [by rewrite IH | unfold is_digit in Hc; lia].
Qed.

Lemma scan_digits_dec s acc n :
  Forall is_digit s →
  scan_digits 10 false acc n s
  = Some (fold_left (λ a c, a * 10 + (c - 48)) s acc, (n + length s)%nat, []).
Proof.
  intros Hs. revert acc n. induction Hs as [|c s Hc _ IH]; intros acc n; simpl.
  - by rewrite Nat.add_0_r.
  - destruct (Z.eqb_spec c UNDERSCORE) as [->|_].
    { unfold is_digit, UNDERSCORE in Hc; lia. }
    rewrite (is_digit_in_base c Hc), IH. do 3 f_equal. lia.
Qed.

Lemma int_digits s : Forall is_digit s → s ≠ [] → int s = Ok (dec_value s).
Proof.
  intros Hs Hne. unfold int_of_str. rewrite (to_ascii_decimal_digits s Hs).
  destruct Hs as [|c s Hc Hs]; [done|]. clear Hne.
  assert (Hsp : c_isspace c = false).
  { unfold c_isspace, is_digit in *.
    destruct (Z.leb_spec 9 c), (Z.leb_spec c 13), (Z.eqb_spec c 32); simpl; lia. }
  unfold long_from_string. cbn [skip_c_spaces]. rewrite Hsp.
  destruct (Z.eqb_spec c PLUS) as [->|_]; [unfold is_digit, PLUS in Hc; lia|].
  destruct (Z.eqb_spec c MINUS) as [->|_]; [unfold is_digit, MINUS in Hc; lia|].
  assert (Hs3 : match c :: s with
                | z :: x :: t =>
                    if (z =? ZERO) && (10 =? 16) && ((x =? 120) || (x =? 88)) then
                      match t with
                      | c :: t' => if c =? UNDERSCORE then t' else t
                      | [] => t
                      end
                    else c :: s
                | _ => c :: s
                end = c :: s).
  { destruct s as [|x t]; [reflexivity|]. by rewrite andb_false_r. }
  rewrite Hs3.
  destruct (Z.eqb_spec c UNDERSCORE) as [->|_]; [unfold is_digit, UNDERSCORE in Hc; lia|].
  rewrite scan_digits_dec by (by constructor). simpl.
  unfold dec_value. simpl. f_equal. by destruct (fold_left _ s _).
Qed.

Lemma rstrip_no_space s : Forall (λ c, isspace c = false) s → rstrip s = s.
Proof.
  induction 1 as [|c s Hc Hs IH]; [done|]. rewrite rstrip_cons, IH.
  destruct (decide (s = [])) as [->|]; [by rewrite Hc | done].
Qed.

Lemma strip_no_space s : Forall (λ c, isspace c = false) s → strip s = s.
Proof.
  intros Hs. unfold strip.
  assert (Hl : lstrip s = s).
  { destruct Hs as [|c s Hc _]; [done|]. simpl. by rewrite Hc. }
  rewrite Hl. by apply rstrip_no_space.
Qed.

Lemma digit_no_space c : is_digit c → isspace c = false.
Proof.
  unfold is_digit. intros H.
  assert (Hc : c = 48 ∨ c = 49 ∨ c = 50 ∨ c = 51 ∨ c = 52 ∨ c = 53 ∨ c = 54
               ∨ c = 55 ∨ c = 56 ∨ c = 57) by lia.
  repeat (destruct Hc as [->|Hc]; [reflexivity|]). by subst.
Qed.

Lemma digits_no_slash s : Forall is_digit s → SLASH ∉ s.
Proof.
  intros H Hin. rewrite Forall_forall in H. specialize (H _ Hin).
  unfold is_digit, SLASH in H. lia.
Qed.

(** X8.  A time field [D/M/YYYY] made of ASCII digits, the year on four, sorts
    on the numbers it shows, and the anchor step reads the same month and
    year from it. *)
Theorem well_formed_date (d m y : str) :
  Forall is_digit d → d ≠ [] →
  Forall is_digit m → m ≠ [] →
  Forall is_digit y → length y = 4%nat →
  let t := d ++ SLASH :: m ++ SLASH :: y in
  parse_date_key t = Ok (dec_value y, dec_value m, dec_value d)
  ∧ anchor_month_year (strip t) = Ok (dec_value m, dec_value y).
Proof.
  intros Hd Hdn Hm Hmn Hy Hlen t.
  assert (Hyn : y ≠ []) by (intros ->; discriminate).
  assert (Hstrip : strip t = t).
  { apply strip_no_space. unfold t.
    rewrite Forall_app, Forall_cons, Forall_app, Forall_cons.
    repeat split; try reflexivity;
      (eapply Forall_impl; [eassumption|]; apply digit_no_space). }
  assert (Hsplit : split SLASH t = [d; m; y]).
  { unfold t. rewrite split_app_sep by (by apply digits_no_slash).
    rewrite split_app_sep by (by apply digits_no_slash).
    by rewrite split_no_sep by (by apply digits_no_slash). }
  split.
  - unfold parse_date_key. rewrite Hstrip, Hsplit, Hlen. simpl.
    rewrite !int_digits by done. reflexivity.
  - unfold anchor_month_year. rewrite Hstrip, Hsplit. simpl.
    rewrite !int_digits by done. reflexivity.
Qed.

Lemma well_formed_date_witness :
  parse_date_key (lit "08/02/2026") = Ok (2026, 2, 8)
  ∧ anchor_month_year (strip (lit "08/02/2026")) = Ok (2, 2026).
Proof.
  apply (well_formed_date (lit "08") (lit "02") (lit "2026"));
    first [compute_done | discriminate].
Defined.

(** X9.  Where the sort key is a parsed date, the anchor step reads the month
    and the year of that key. *)
Theorem key_and_anchor_agree (t p0 p1 p2 : str) (y m d : Z) :
  split SLASH (strip t) = [p0; p1; p2] → length p2 = 4%nat →
  parse_date_key t = Ok (y, m, d) →
  anchor_month_year (strip t) = Ok (m, y).
Proof.
  intros Hsplit Hlen. unfold parse_date_key, anchor_month_year.
  rewrite Hsplit, Hlen. simpl.
  destruct (int p2) as [yv|]; binds; [|discriminate].
  destruct (int p1) as [mv|]; binds; [|discriminate].
  destruct (int p0) as [dv|]; binds; [|discriminate].
  by intros [= -> -> ->].
Qed.

Lemma key_and_anchor_agree_witness :
  anchor_month_year (strip (lit " 9/12/2027 ")) = Ok (12, 2027).
Proof.
  apply (key_and_anchor_agree (lit " 9/12/2027 ") (lit "9") (lit "12") (lit "2027")
           2027 12 9); by_vm.
Defined.

(** ** What the sort does *)

(** X10.  [list.sort] keeps the rows of one key in file order, and puts every row
    that sorts on the sentinel key [(0, 0, 0)] before every row whose key
    has a positive year. *)
Theorem sort_is_stable (rows sorted : list row) :
  sort_rows rows = Ok sorted →
  (∀ k, filter (has_key k) sorted = filter (has_key k) rows)
  ∧ (∀ (i j : nat) (ri rj : row) (y m d : Z),
       sorted !! i = Some ri → sorted !! j = Some rj →
       sort_key ri = Ok (0, 0, 0) → sort_key rj = Ok (y, m, d) → 0 < y →
       (i < j)%nat).
Proof.
  intros Hsort.
  destruct (sort_rows_Ok _ _ Hsort) as (Hall & Hperm & Hsorted & Hstable).
  split; [exact Hstable|].
  intros i j ri rj y m d Hi Hj Hki Hkj Hy.
  destruct (Nat.lt_ge_cases i j) as [Hlt|Hge]; [exact Hlt|].
  assert (Hasc : ascending sorted).
  { apply key_sorted_ascending; [by rewrite Hperm | done]. }
  pose proof (Hasc j i rj ri _ _ Hge Hj Hi Hkj Hki) as Hle.
  unfold key_leb in Hle.
  rewrite ?orb_true_iff, ?andb_true_iff, ?Z.ltb_lt, ?Z.eqb_eq in Hle. lia.
Qed.

Lemma sort_is_stable_witness :
  filter (has_key (2026, 2, 8)) (returned_rows (sort_rows (read_rows csv_tie_ab)))
  = filter (has_key (2026, 2, 8)) (read_rows csv_tie_ab).
Proof.
  destruct (sort_is_stable (read_rows csv_tie_ab)
              (returned_rows (sort_rows (read_rows csv_tie_ab)))
              ltac:(by_vm)) as [Hstable _].
  exact (Hstable (2026, 2, 8)).
Defined.

(** X11.  The sort raises, always [ValueError], exactly when some row has a time
    field of three parts with a four-character last part on which [int]
    rejects one of the parts. *)
Theorem sort_fails_on_non_numeric (rows : list row) :
  (∀ e, sort_rows rows = Raise e → e = ValueError)
  ∧ (is_ok (sort_rows rows) = false ↔
     ∃ (r : row) (p0 p1 p2 : str),
       r ∈ rows
       ∧ split SLASH (strip (get r TIME)) = [p0; p1; p2]
       ∧ length p2 = 4%nat
       ∧ (int p2 = Raise ValueError ∨ int p1 = Raise ValueError
          ∨ int p0 = Raise ValueError)).
Proof.
  rewrite sort_rows_eq. split.
  - intros e. destruct (decide _); [discriminate | congruence].
  - destruct (decide (Forall _ rows)) as [Hall|Hall]; simpl.
    + split; [discriminate|]. intros (r & p0 & p1 & p2 & Hin & Hs & Hlen & Hbad).
      rewrite Forall_forall in Hall. specialize (Hall r Hin).
      unfold sort_key, parse_date_key in Hall. rewrite Hs, Hlen in Hall.
      simpl in Hall. destruct Hbad as [H|[H|H]].
      * by rewrite H in Hall.
      * rewrite H in Hall. by destruct (int p2).
      * rewrite H in Hall. by destruct (int p2), (int p1).
    + split; [|done]. intros _.
      apply not_Forall_Exists in Hall; [|intros r; apply _].
      apply Exists_exists in Hall as (r & Hin & Hr).
      unfold compose in Hr. cbv beta in Hr.
      unfold sort_key, parse_date_key in Hr.
      destruct (split SLASH (strip (get r TIME))) as [|p0 [|p1 [|p2 [|p3 ps]]]] eqn:Hs;
        try (by destruct Hr).
      destruct (Nat.eqb_spec (length p2) 4) as [Hlen|]; [|by destruct Hr].
      exists r, p0, p1, p2. repeat split; try done.
      destruct (int p2) as [yv|e2] eqn:H2;
        [|left; f_equal; by eapply int_raise].
      destruct (int p1) as [mv|e1] eqn:H1;
        [|right; left; f_equal; by eapply int_raise].
      destruct (int p0) as [dv|e0] eqn:H0;
        [|right; right; f_equal; by eapply int_raise].
      by destruct Hr.
Qed.

(** X12.  Sorting twice is sorting once: a file already in sorted order is left
    as it is, and gives the same outcome. *)
Theorem sort_is_idempotent (rows sorted : list row) :
  sort_rows rows = Ok sorted →
  sort_rows sorted = Ok sorted ∧ select_day sorted = select_day rows.
Proof.
  intros Hsort.
  destruct (sort_rows_Ok _ _ Hsort) as (Hall & Hperm & Hsorted & Hstable).
  assert (Hs : sort_rows sorted = Ok sorted).
  { rewrite sort_rows_eq, decide_True by (by rewrite Hperm). f_equal.
    assert (H : sort_keyed (keyed sorted) = keyed sorted).
    { apply key_sorted_unique; [apply sort_keyed_sorted | done |].
      intros k. apply sort_keyed_filter. }
    by rewrite H, keyed_snd. }
  split; [exact Hs|]. unfold select_day. by rewrite Hs, Hsort.
Qed.

Lemma sort_is_idempotent_witness :
  sort_rows (reverse rows_feb_2026) = Ok (reverse rows_feb_2026)
  ∧ select_day (reverse rows_feb_2026) = select_day rows_feb_2026.
Proof.
  apply (sort_is_idempotent rows_feb_2026 (reverse rows_feb_2026)). by_vm.
Defined.

Lemma sort_fails_on_non_numeric_witness :
  is_ok (sort_rows (read_rows csv_bad_date_first)) = false.
Proof.
  destruct (sort_fails_on_non_numeric (read_rows csv_bad_date_first)) as [_ H].
  apply H.
  exists (default ∅ (head (read_rows csv_bad_date_first))),
         (lit "aa"), (lit "bb"), (lit "cccc").
  split; [compute_done|]. split; [by_vm|]. split; [by_vm|].
  left. by_vm.
Defined.

(** X13.  The anchor is a row of the file with the greatest key, the last of them
    in file order when several rows have it; its stripped time field is the
    result's [last_date]. *)
Theorem anchor_is_latest (rows : list row) (r : Selection.t) :
  select_day rows = Ok r →
  ∃ (last_row : row) (t : str),
    last_row ∈ rows
    ∧ last_row !! TIME = Some t
    ∧ Selection.last_date r = strip t
    ∧ (∀ r' : row, r' ∈ rows → key_leb (key_of r') (key_of last_row) = true)
    ∧ last (filter (has_key (key_of last_row)) rows) = Some last_row.
Proof.
  intros Hr. apply select_day_run in Hr.
  destruct Hr as [sorted lr t m y d1 bytes nm ny Hsort Hlast Ht _ _ _ _ _ _
                    _ _ Hdate _ _].
  destruct (sort_rows_Ok _ _ Hsort) as (Hall & Hperm & Hsorted & Hstable).
  apply last_Some in Hlast as [init ->].
  assert (Hin : lr ∈ rows).
  { rewrite <- Hperm. apply elem_of_app. right. left. }
  exists lr, t. repeat split; try assumption.
  - intros r' Hr'. rewrite <- Hperm in Hr'.
    apply elem_of_app in Hr' as [Hr'|Hr'].
    + unfold key_sorted, keyed in Hsorted. rewrite map_app in Hsorted.
      apply (StronglySorted_app_1_elem_of _ _ _ (key_of r', r') (key_of lr, lr) Hsorted).
      * apply list_elem_of_In. apply (in_map (λ r : row, (key_of r, r))).
        by apply list_elem_of_In.
      * left.
    + apply list_elem_of_singleton in Hr' as ->. apply key_leb_refl.
  - rewrite <- Hstable, filter_app, filter_cons, decide_True.
    + apply last_snoc.
    + rewrite Forall_forall in Hall. by apply sort_key_key_of, Hall.
Qed.

Lemma anchor_is_latest_witness :
  ∃ (last_row : row) (t : str),
    last_row ∈ rows_feb_2026
    ∧ last_row !! TIME = Some t
    ∧ Selection.last_date (returned (select_day rows_feb_2026)) = strip t
    ∧ (∀ r' : row, r' ∈ rows_feb_2026 → key_leb (key_of r') (key_of last_row) = true)
    ∧ last (filter (has_key (key_of last_row)) rows_feb_2026) = Some last_row.
Proof.
  apply (anchor_is_latest rows_feb_2026). by_vm.
Defined.

(** ** Reading the file *)

Lemma strip_outer (w text w' : str) :
  Forall (λ c, isspace c = true) w → Forall (λ c, isspace c = true) w' →
  strip (w ++ text ++ w') = strip text.
Proof.
  intros Hw Hw'. unfold strip.
  rewrite lstrip_app, decide_True by (by apply lstrip_nil_iff).
  rewrite !strip_comm, rstrip_app, decide_True by (by apply rstrip_nil_iff).
  done.
Qed.

Lemma length_split sep s :
  length (split sep s) = S (length (filter (λ c, c = sep) s)).
Proof.
  induction s as [|c s IH]; [done|]. simpl. rewrite filter_cons.
  destruct (Z.eqb_spec c sep) as [->|Hne].
  - rewrite decide_True by done. simpl. by rewrite IH.
  - rewrite decide_False by done.
    pose proof (split_nonempty sep s). destruct (split sep s); [done|].
    simpl in *. exact IH.
Qed.

(** X14.  Whitespace, newlines included, before the header and after the last
    line is not read: it adds no row and changes none.  The number of rows
    is the number of newlines left in the stripped text, blank lines in the
    middle included, and it is the result's [rows]. *)
Theorem outer_whitespace_and_row_count (w text w' : str) :
  Forall (λ c, isspace c = true) w → Forall (λ c, isspace c = true) w' →
  read_rows (w ++ text ++ w') = read_rows text
  ∧ length (read_rows text) = length (filter (λ c, c = NL) (strip text))
  ∧ (∀ r, select_day (read_rows text) = Ok r →
       Selection.rows r = Z.of_nat (length (filter (λ c, c = NL) (strip text)))).
Proof.
  intros Hw Hw'.
  assert (Hlen : length (read_rows text)
                 = length (filter (λ c, c = NL) (strip text))).
  { unfold read_rows. rewrite length_map.
    pose proof (length_split NL (strip text)) as H.
    destruct (split NL (strip text)); simpl in *; lia. }
  split; [|split].
  - unfold read_rows. by rewrite strip_outer.
  - exact Hlen.
  - intros r Hr. apply select_day_run in Hr.
    destruct Hr as [sorted lr t m y d1 bytes nm ny Hsort _ _ _ _ _ _ _ _
                      _ Hrows _ _ _].
    destruct (sort_rows_Ok _ _ Hsort) as (_ & Hperm & _).
    by rewrite Hrows, Hperm, Hlen.
Qed.

Lemma outer_whitespace_and_row_count_witness :
  read_rows ([NL; 32] ++ csv_feb_2026 ++ [NL; NL]) = read_rows csv_feb_2026
  ∧ length (read_rows csv_feb_2026)
    = length (filter (λ c, c = NL) (strip csv_feb_2026))
  ∧ (∀ r, select_day (read_rows csv_feb_2026) = Ok r →
       Selection.rows r
       = Z.of_nat (length (filter (λ c, c = NL) (strip csv_feb_2026)))).
Proof.
  apply (outer_whitespace_and_row_count [NL; 32] csv_feb_2026 [NL; NL]);
    compute_done.
Defined.

(** ** The script's top level *)

Lemma compute_best_day_raise fs path e :
  compute_best_day fs path = Raise e → e ≠ AssertionError.
Proof.
  unfold compute_best_day. destruct (fs path) as [text|]; binds.
  - intros H%select_day_raise. intros ->.
    destruct H as [?|[?|[?|[?|?]]]]; discriminate.
  - by intros [= <-].
Qed.

Lemma print_all_run lines out : print_all lines out = (out ++ lines, Ok ()).
Proof.
  revert out. induction lines as [|l ls IH]; intros out; simpl.
  - by rewrite app_nil_r.
  - unfold bind, print. rewrite IH. by rewrite <- app_assoc.
Qed.

Lemma bind_print {B} s (k : unit → prog B) out :
  bind (print s) k out = k () (out ++ [s]).
Proof. reflexivity. Qed.

Lemma bind_print_all {B} lines (k : unit → prog B) out :
  bind (print_all lines) k out = k () (out ++ lines).
Proof. unfold bind. by rewrite print_all_run. Qed.

Lemma bind_lift_Ok {A B} (a : A) (k : A → prog B) out :
  bind (lift (Ok a)) k out = k a out.
Proof. reflexivity. Qed.

Lemma bind_lift_Raise {A B} e (k : A → prog B) out :
  bind (lift (Raise e)) k out = (out, Raise e).
Proof. reflexivity. Qed.

Lemma scenarios_cons_some fs f files text out :
  fs f = Some text →
  scenarios fs (f :: files) out
  = bind (lift (compute_best_day fs f)) (λ r,
    bind (print (NL :: basename f)) (λ _,
    bind (print_all (report r)) (λ _, scenarios fs files))) out.
Proof. intros H. simpl. by rewrite H. Qed.

Lemma scenarios_cons_none fs f files out :
  fs f = None → scenarios fs (f :: files) out = scenarios fs files out.
Proof. intros H. simpl. by rewrite H. Qed.

Lemma scenarios_ok fs files out :
  Forall (λ f, exists_file fs f = true → is_ok (compute_best_day fs f) = true) files →
  scenarios fs files out
  = (out ++ flat_map (block fs) (filter (λ f, exists_file fs f = true) files), Ok ()).
Proof.
  intros Hall. revert out. induction Hall as [|f files Hf _ IH]; intros out.
  - simpl. by rewrite app_nil_r.
  - rewrite filter_cons. unfold exists_file in *.
    destruct (fs f) as [text|] eqn:Hfs.
    + rewrite decide_True by done. specialize (Hf eq_refl).
      apply is_ok_true in Hf as [r Hr].
      rewrite (scenarios_cons_some _ _ _ _ _ Hfs), Hr, bind_lift_Ok.
      rewrite bind_print, bind_print_all, IH.
      cbn [flat_map]. unfold block. rewrite Hr. simpl returned.
      f_equal. rewrite <- !app_assoc. reflexivity.
    + rewrite decide_False by done.
      rewrite (scenarios_cons_none _ _ _ _ Hfs). apply IH.
Qed.

Lemma scenarios_fail fs files out :
  ¬ Forall (λ f, exists_file fs f = true → is_ok (compute_best_day fs f) = true) files →
  ∃ f e, f ∈ files ∧ compute_best_day fs f = Raise e
         ∧ (scenarios fs files out).2 = Raise e.
Proof.
  revert out. induction files as [|f files IH]; intros out Hnot.
  - destruct Hnot. constructor.
  - unfold exists_file in *. destruct (fs f) as [text|] eqn:Hfs.
    + rewrite (scenarios_cons_some _ _ _ _ _ Hfs).
      destruct (compute_best_day fs f) as [r|e] eqn:Hr.
      * rewrite bind_lift_Ok, bind_print, bind_print_all.
        destruct (IH ((out ++ [NL :: basename f]) ++ report r))
          as (f' & e & Hin & He & Hrun).
        { intros Hall. apply Hnot. constructor; [|done]. intros _.
          by rewrite Hr. }
        exists f', e. split; [by right|]. by split.
      * exists f, e. split; [left|]. split; [done|]. by rewrite bind_lift_Raise.
    + rewrite (scenarios_cons_none _ _ _ _ Hfs).
      destruct (IH out) as (f' & e & Hin & He & Hrun).
      { intros Hall. apply Hnot. constructor; [|done]. by rewrite Hfs. }
      exists f', e. split; [by right|]. by split.
Qed.

Lemma main_accepted fs globbed r :
  let files := sorted globbed ++ [UPLOAD] in
  Forall (λ f, exists_file fs f = true → is_ok (compute_best_day fs f) = true) files →
  compute_best_day fs SAMPLE = Ok r →
  main fs globbed []
  = ([rule; lit "SHA-256 DETERMINISTIC BEST PURCHASE DAY VERIFICATION"; rule]
     ++ flat_map (block fs) (filter (λ f, exists_file fs f = true) files)
     ++ [NL :: rule; lit "SAMPLE DATA (India_Cardamom_Final_Ready.csv)"; rule]
     ++ report r
     ++ [NL :: rule; lit "DETERMINISM CHECK (re-running sample data)";
         lit "  >>> " ++ Selection.result r ++ lit " (MATCHES - deterministic!)"],
     Ok ()).
Proof.
  intros files Hall Hs. unfold main. fold files.
  rewrite bind_print_all. unfold bind at 1. rewrite (scenarios_ok fs files _ Hall).
  rewrite bind_print_all, Hs, bind_lift_Ok, bind_print_all, bind_print_all, bind_lift_Ok.
  rewrite decide_True by done. cbn [bind ret]. unfold print.
  f_equal. rewrite <- !app_assoc. reflexivity.
Qed.

Lemma main_sample_rejected fs globbed e :
  let files := sorted globbed ++ [UPLOAD] in
  Forall (λ f, exists_file fs f = true → is_ok (compute_best_day fs f) = true) files →
  compute_best_day fs SAMPLE = Raise e →
  (main fs globbed []).2 = Raise e.
Proof.
  intros files Hall Hs. unfold main. fold files.
  rewrite bind_print_all. unfold bind at 1. rewrite (scenarios_ok fs files _ Hall).
  by rewrite bind_print_all, Hs, bind_lift_Raise.
Qed.

Lemma main_file_rejected fs globbed :
  let files := sorted globbed ++ [UPLOAD] in
  ¬ Forall (λ f, exists_file fs f = true → is_ok (compute_best_day fs f) = true) files →
  ∃ f e, f ∈ files ∧ compute_best_day fs f = Raise e
         ∧ (main fs globbed []).2 = Raise e.
Proof.
  intros files Hnot. unfold main. fold files. rewrite bind_print_all.
  destruct (scenarios_fail fs files
              ([] ++ [rule; lit "SHA-256 DETERMINISTIC BEST PURCHASE DAY VERIFICATION"; rule])
              Hnot) as (f & e & Hin & He & Hrun).
  exists f, e. split; [done|]. split; [done|].
  unfold bind at 1. destruct (scenarios fs files _) as [out' res].
  simpl in Hrun. by subst res.
Qed.

(** X15.  The script ends without an exception exactly when [compute_best_day]
    accepts every listed file that exists and the sample file; listed files
    that do not exist are skipped without a word, and the determinism
    assertion never fires.  It then has printed, in order, the banner, a
    block of five lines per existing file, the sample's report, and the
    determinism line. *)
Theorem script_outcome (fs : filesystem) (globbed : list str) :
  let files := sorted globbed ++ [UPLOAD] in
  let accepted :=
    Forall (λ f, exists_file fs f = true → is_ok (compute_best_day fs f) = true) files
    ∧ is_ok (compute_best_day fs SAMPLE) = true in
  (main fs globbed []).2 ≠ Raise AssertionError
  ∧ ((main fs globbed []).2 = Ok () ↔ accepted)
  ∧ (accepted →
     (main fs globbed []).1
     = [rule; lit "SHA-256 DETERMINISTIC BEST PURCHASE DAY VERIFICATION"; rule]
       ++ flat_map (block fs) (filter (λ f, exists_file fs f = true) files)
       ++ [NL :: rule; lit "SAMPLE DATA (India_Cardamom_Final_Ready.csv)"; rule]
       ++ report (returned (compute_best_day fs SAMPLE))
       ++ [NL :: rule; lit "DETERMINISM CHECK (re-running sample data)";
           lit "  >>> " ++ Selection.result (returned (compute_best_day fs SAMPLE))
           ++ lit " (MATCHES - deterministic!)"]).
Proof.
  intros files accepted. subst accepted.
  destruct (decide (Forall (λ f, exists_file fs f = true
                               → is_ok (compute_best_day fs f) = true) files))
    as [Hall|Hnot].
  - destruct (compute_best_day fs SAMPLE) as [r|e] eqn:Hs.
    + rewrite (main_accepted fs globbed r Hall Hs). cbn [fst snd returned is_ok].
      split; [discriminate|]. split; [by split|]. done.
    + rewrite (main_sample_rejected fs globbed e Hall Hs). cbn [is_ok].
      split; [intros [= ->]; by eapply compute_best_day_raise|].
      split; [|by intros [_ ?]]. split; [discriminate | by intros [_ ?]].
  - destruct (main_file_rejected fs globbed Hnot) as (f & e & _ & He & ->).
    split; [intros [= ->]; by eapply compute_best_day_raise|].
    split; [|by intros [? _]]. split; [discriminate | by intros [? _]].
Qed.

Lemma script_outcome_witness :
  (main fs_two [lit "assets/data/test-scenarios/test-a.csv"] []).2 = Ok ().
Proof.
  destruct (script_outcome fs_two [lit "assets/data/test-scenarios/test-a.csv"])
    as (_ & H & _).
  apply H. split; [compute_done | by_vm].
Defined.
